(** * pyro.util: validation and diagnostic utilities

    A shallow embedding of [src/pyro/util.py] and the properties of its
    checkers: [check_site_shape], [check_traces_match],
    [check_model_guide_match], [check_traceenum_requirements],
    [check_if_enumerated], [torch_isnan] / [torch_isinf], [warn_if_nan] /
    [warn_if_inf], [deep_getattr] and the [optional] context manager.

    Conventions of the embedding:
    - Python integers are [Z]; shapes are [list Z], read left to right;
    - [None]-able attributes are [option];
    - [set] and [frozenset] are stdpp's [gset]; their iteration order, which
      Python leaves unspecified, is a parameter of the functions that iterate;
    - [warnings.warn] and [raise] are the two effects of the module: a
      computation returns the warnings it emitted, in order, and either an
      exception or a value (the monad [M] below). *)

From Stdlib Require Import ZArith String List Bool Lia.
From Stdlib Require Import Floats.SpecFloat.
From stdpp Require Import base option list gmap strings fin_maps fin_sets sorting.

Open Scope Z_scope.

(** ** Data model *)

(** Modelled from the spec: the class of the frames of [cond_indep_stack] (one
    plate instance each) is declared in [pyro.poutine], not in this module,
    which reads its attributes [name], [dim], [size], [counter] and
    [vectorized]. *)
Record Frame := mkFrame {
  f_name : string;
  f_dim : option Z;
  f_size : Z;
  f_counter : Z;
  f_vectorized : bool
}.

(** Modelled from the spec: the distribution object [site["fn"]], of a class
    declared outside this module.  [hasattr(fn, "event_dim")] and
    [hasattr(fn, "shape")] are the [Some] cases; [fn_shape] is the value of
    [fn.shape( *site["args"], **site["kwargs"])]. *)
Record Fn := mkFn {
  fn_type_name : string;
  fn_event_dim : option Z;
  fn_shape : option (list Z)
}.

(** Modelled from the spec: the dictionary [site["infer"]]; each field is what
    [.get(key)] returns. *)
Record Infer := mkInfer {
  is_auxiliary : option bool;
  enumerate : option string;
  _enumerate_dim : option Z
}.

(** Modelled from the spec: a site record of a trace, a dictionary built by
    [pyro.poutine]; the fields are the keys this module reads, [log_prob_shape]
    being [site["log_prob"].shape]. *)
Record Site := mkSite {
  site_type : string;
  site_name : string;
  site_fn : Fn;
  is_observed : bool;
  site_infer : Infer;
  cond_indep_stack : list Frame;
  log_prob_shape : list Z
}.

(** Modelled from the spec: [trace.nodes], an ordered mapping from site names
    to sites, as the list of its items. *)
Definition Trace := list (string * Site).

(** [trace.nodes[name]] *)
Fixpoint nodes_get (trace : Trace) (name : string) : option Site :=
  match trace with
  | [] => None
  | (n, site) :: rest => if String.eqb n name then Some site else nodes_get rest name
  end.

(** [max_plate_nesting] is an integer or [float('inf')] (the default of
    [check_model_guide_match]). *)
Inductive nesting :=
| Finite (n : Z)
| Infinity.

(** [len > max_plate_nesting] *)
Definition len_gt (len : nat) (max_plate_nesting : nesting) : bool :=
  match max_plate_nesting with
  | Finite n => n <? Z.of_nat len
  | Infinity => false
  end.

(** ** Effects: exceptions and warnings *)

Inductive value_error :=
| DimCollision (site plate : string)
| PlateStackOverflow (site : string) (at_least : nat)
| InvalidLogProbShape (site : string) (expected actual : list Z)
| SiteDimsDisagree (site : string) (shape1 shape2 : list Z)
| EventDimsDisagree (site : string) (model_event_dim guide_event_dim : Z)
| ShapesDisagree (site : string) (model_shape guide_shape : list Z).

Inductive exn :=
| AssertionError
| IndexError
| KeyError (key : string)
| ValueError (e : value_error).

Inductive warning :=
| ModelVarsChanged (vars1 vars2 : gset string)
| AuxiliaryVarsInModel (vars : gset string)
| NonAuxiliaryVarsInGuide (vars : gset string)
| VarsInModelNotGuide (vars : gset string)
| PlatesInGuideNotModel (vars : gset string)
| PossiblyInvalidDependency (role site : string) (names plates : list string).

Definition M (A : Type) : Type := (list warning * (exn + A))%type.

Definition raise {A} (e : exn) : M A := ([], inl e).
Definition warn (w : warning) : M unit := ([w], inr tt).

#[global] Instance M_ret : MRet M := λ A x, ([], inr x).
#[global] Instance M_bind : MBind M := λ A B f m,
  match m with
  | (ws, inl e) => (ws, inl e)
  | (ws, inr a) => let '(ws', r) := f a in (ws ++ ws', r)
  end.

Definition warnings_of {A} (m : M A) : list warning := m.1.
Definition outcome {A} (m : M A) : exn + A := m.2.

(** [for x in xs: acc = body(acc, x)] *)
Fixpoint foldM {A B} (body : B → A → M B) (acc : B) (xs : list A) : M B :=
  match xs with
  | [] => mret acc
  | x :: rest => acc' ← body acc x; foldM body acc' rest
  end.

(** [for x in xs: body(x)] *)
Fixpoint for_each {A} (xs : list A) (body : A → M unit) : M unit :=
  match xs with
  | [] => mret tt
  | x :: rest => body x;; for_each rest body
  end.

(** ** Python list primitives *)

(** Position denoted by a Python index: negative indices count from the
    right; out of range is [None] (an [IndexError] at the use site). *)
Definition py_index (len : nat) (i : Z) : option nat :=
  if (0 <=? i) && (i <? Z.of_nat len) then Some (Z.to_nat i)
  else if (i <? 0) && (- Z.of_nat len <=? i) then Some (Z.to_nat (Z.of_nat len + i))
  else None.

(** [l[i]] *)
Definition py_getitem {A} (l : list A) (i : Z) : option A :=
  k ← py_index (length l) i; l !! k.

(** [l[i] = x] *)
Definition py_setitem {A} (l : list A) (i : Z) (x : A) : option (list A) :=
  k ← py_index (length l) i; Some (<[k := x]> l).

(** [zip_longest(l1, l2, fillvalue=fillvalue)] *)
Fixpoint zip_longest {A} (fillvalue : A) (l1 l2 : list A) : list (A * A) :=
  match l1 with
  | [] => (λ b, (fillvalue, b)) <$> l2
  | a :: l1' =>
      match l2 with
      | [] => (a, fillvalue) :: ((λ a', (a', fillvalue)) <$> l1')
      | b :: l2' => (a, b) :: zip_longest fillvalue l1' l2'
      end
  end.

(** [if len(shape) > max_plate_nesting:
       shape = shape[len(shape) - max_plate_nesting:]]
    Under the guard the start of the slice is positive, so the slice drops
    that many leading entries (all of them when the start passes the end). *)
Definition rightmost (max_plate_nesting : nesting) (shape : list Z) : list Z :=
  match max_plate_nesting with
  | Finite n =>
      if n <? Z.of_nat (length shape)
      then drop (Z.to_nat (Z.of_nat (length shape) - n)) shape
      else shape
  | Infinity => shape
  end.

(** ** [check_site_shape] *)

(** One iteration of [for f in site["cond_indep_stack"]].  The message of the
    dim-collision error is a format string with two placeholders, applied to
    [site["name"]], [f.name] and [f.dim]: it shows the first two, the site name
    and the frame name. *)
Definition expected_shape_step (site : Site)
    (expected_shape : list (option Z)) (f : Frame) : M (list (option Z)) :=
  match f_dim f with
  | None => mret expected_shape
  | Some d =>
      if negb (d <? 0) then raise AssertionError else
      let expected_shape :=
        if Z.of_nat (length expected_shape) <? - d
        then replicate (Z.to_nat (- d - Z.of_nat (length expected_shape))) None
               ++ expected_shape
        else expected_shape in
      match py_getitem expected_shape d with
      | None => raise IndexError
      | Some (Some _) =>
          raise (ValueError (DimCollision (site_name site) (f_name f)))
      | Some None =>
          match py_setitem expected_shape d (Some (f_size f)) with
          | None => raise IndexError
          | Some expected_shape' => mret expected_shape'
          end
      end
  end.

(** The loop that computes the expected shape, [None] marking the positions no
    frame has claimed. *)
Definition compute_expected_shape (site : Site) : M (list (option Z)) :=
  foldM (expected_shape_step site) [] (cond_indep_stack site).

(** [[-1 if e is None else e for e in expected_shape]] *)
Definition fill_wildcards (expected_shape : list (option Z)) : list Z :=
  (λ e, match e with None => -1 | Some e => e end) <$> expected_shape.

Definition check_site_shape (site : Site) (max_plate_nesting : nesting) : M unit :=
  let actual_shape := log_prob_shape site in
  expected_shape ← compute_expected_shape site;
  let expected_shape := fill_wildcards expected_shape in
  if len_gt (length expected_shape) max_plate_nesting then
    raise (ValueError (PlateStackOverflow (site_name site) (length expected_shape)))
  else
  let actual_shape := rightmost max_plate_nesting actual_shape in
  for_each (zip_longest 1 (reverse actual_shape) (reverse expected_shape))
    (λ '(actual_size, expected_size),
       if negb (expected_size =? -1) && negb (expected_size =? actual_size)
       then raise (ValueError
                     (InvalidLogProbShape (site_name site) expected_shape actual_shape))
       else mret tt).

(** ** Sets of site names *)

(** [set(name for name, site in trace.nodes.items() if keep(site))] *)
Definition names_where (keep : Site → bool) (trace : Trace) : gset string :=
  list_to_set (fst <$> filter (λ item, keep item.2 = true) trace).

Definition is_sample (site : Site) : bool :=
  bool_decide (site_type site = "sample").

(** [type(site["fn"]).__name__ == "_Subsample"] *)
Definition is_subsample (site : Site) : bool :=
  bool_decide (fn_type_name (site_fn site) = "_Subsample").

(** Truth value of [site["infer"].get("is_auxiliary")]. *)
Definition truthy_bool (v : option bool) : bool :=
  match v with Some b => b | None => false end.

(** Truth value of [site["infer"].get("enumerate")]: a missing key gives
    [None], and the empty string is false as well. *)
Definition truthy_str (v : option string) : bool :=
  match v with Some s => negb (String.eqb s EmptyString) | None => false end.

(** [trace.nodes[name]], raising [KeyError] on a missing name. *)
Definition nodes_getitem (trace : Trace) (name : string) : M Site :=
  match nodes_get trace name with
  | Some site => mret site
  | None => raise (KeyError name)
  end.

(** [if c: warnings.warn(w)] *)
Definition warn_if (c : bool) (w : warning) : M unit :=
  if c then warn w else mret tt.

(** ** [check_traces_match] *)

Definition check_traces_match (set_iter : gset string → list string)
    (trace1 trace2 : Trace) : M unit :=
  let vars1 := names_where is_sample trace1 in
  let vars2 := names_where is_sample trace2 in
  warn_if (bool_decide (vars1 ≠ vars2)) (ModelVarsChanged vars1 vars2);;
  for_each (set_iter vars1) (λ name,
    site1 ← nodes_getitem trace1 name;
    site2 ← nodes_getitem trace2 name;
    match fn_shape (site_fn site1), fn_shape (site_fn site2) with
    | Some shape1, Some shape2 =>
        if bool_decide (shape1 ≠ shape2)
        then raise (ValueError (SiteDimsDisagree name shape1 shape2))
        else mret tt
    | _, _ => mret tt
    end).

(** ** [check_model_guide_match] *)

(** The first half of the loop body: the [event_dim] comparison. *)
Definition check_event_dims (name : string) (model_site guide_site : Site) : M unit :=
  match fn_event_dim (site_fn model_site), fn_event_dim (site_fn guide_site) with
  | Some model_event_dim, Some guide_event_dim =>
      if bool_decide (model_event_dim ≠ guide_event_dim)
      then raise (ValueError (EventDimsDisagree name model_event_dim guide_event_dim))
      else mret tt
  | _, _ => mret tt
  end.

(** The second half of the loop body: the shape comparison.  Both [continue]
    statements end the iteration, which is what returning does here since
    nothing follows in the body. *)
Definition check_shapes (name : string) (max_plate_nesting : nesting)
    (model_site guide_site : Site) : M unit :=
  match fn_shape (site_fn model_site), fn_shape (site_fn guide_site) with
  | Some model_shape, Some guide_shape =>
      if bool_decide (model_shape = guide_shape) then mret tt else
      let model_shape := rightmost max_plate_nesting model_shape in
      let guide_shape := rightmost max_plate_nesting guide_shape in
      if bool_decide (model_shape = guide_shape) then mret tt else
      for_each (zip_longest 1 (reverse model_shape) (reverse guide_shape))
        (λ '(model_size, guide_size),
           if bool_decide (model_size ≠ guide_size)
           then raise (ValueError (ShapesDisagree name model_shape guide_shape))
           else mret tt)
  | _, _ => mret tt
  end.

(** The body of [for name in model_vars & guide_vars]. *)
Definition check_matched_site (model_trace guide_trace : Trace)
    (max_plate_nesting : nesting) (name : string) : M unit :=
  model_site ← nodes_getitem model_trace name;
  guide_site ← nodes_getitem guide_trace name;
  check_event_dims name model_site guide_site;;
  check_shapes name max_plate_nesting model_site guide_site.

Definition guide_vars_of (guide_trace : Trace) : gset string :=
  names_where (λ site, is_sample site && negb (is_subsample site)) guide_trace.

Definition aux_vars_of (guide_trace : Trace) : gset string :=
  names_where (λ site, is_sample site && truthy_bool (is_auxiliary (site_infer site)))
    guide_trace.

Definition model_vars_of (model_trace : Trace) : gset string :=
  names_where (λ site, is_sample site && negb (is_observed site)
                       && negb (is_subsample site)) model_trace.

Definition enum_vars_of (model_trace : Trace) (guide_vars : gset string) : gset string :=
  list_to_set (fst <$> filter
    (λ item, (is_sample item.2 && negb (is_observed item.2)
              && negb (is_subsample item.2)
              && bool_decide (is_Some (_enumerate_dim (site_infer item.2)))
              && bool_decide (item.1 ∉ guide_vars)) = true) model_trace).

Definition check_model_guide_match (set_iter : gset string → list string)
    (model_trace guide_trace : Trace) (max_plate_nesting : nesting) : M unit :=
  let guide_vars := guide_vars_of guide_trace in
  let aux_vars := aux_vars_of guide_trace in
  let model_vars := model_vars_of model_trace in
  let enum_vars := enum_vars_of model_trace guide_vars in
  warn_if (bool_decide (aux_vars ∩ model_vars ≠ ∅))
    (AuxiliaryVarsInModel (aux_vars ∩ model_vars));;
  warn_if (negb (bool_decide (guide_vars ⊆ model_vars ∪ aux_vars)))
    (NonAuxiliaryVarsInGuide (guide_vars ∖ aux_vars ∖ model_vars));;
  warn_if (negb (bool_decide (model_vars ⊆ guide_vars ∪ enum_vars)))
    (VarsInModelNotGuide (model_vars ∖ guide_vars ∖ enum_vars));;
  for_each (set_iter (model_vars ∩ guide_vars))
    (check_matched_site model_trace guide_trace max_plate_nesting);;
  let model_vars :=
    names_where (λ site, is_sample site && negb (is_observed site) && is_subsample site)
      model_trace in
  let guide_vars :=
    names_where (λ site, is_sample site && is_subsample site) guide_trace in
  warn_if (negb (bool_decide (guide_vars ⊆ model_vars)))
    (PlatesInGuideNotModel (guide_vars ∖ model_vars)).

(** ** [check_traceenum_requirements] *)

#[global] Instance Frame_eq_dec : EqDecision Frame.
Proof. solve_decision. Defined.

#[global] Instance Frame_countable : Countable Frame :=
  inj_countable'
    (λ f, (f_name f, f_dim f, f_size f, f_counter f, f_vectorized f))
    (λ t, let '(n, d, s, c, v) := t in mkFrame n d s c v)
    (λ f, match f with mkFrame _ _ _ _ _ => eq_refl end).

(** Python's order on [str], by code points. *)
Definition string_le (a b : string) : Prop := String.leb a b = true.

#[global] Instance string_le_dec : RelDecision string_le.
Proof. intros a b. unfold string_le. apply _. Defined.

(** [sorted(names)] *)
Definition sorted (names : list string) : list string := merge_sort string_le names.

Definition _are_independent (counters1 counters2 : gmap string Z) : bool :=
  existsb (λ '(name, counter1),
             match counters2 !! name with
             | Some counter2 => bool_decide (counter2 ≠ counter1)
             | None => false
             end)
          (map_to_list counters1).

(** [{f.name: f.counter for f in stack if not f.vectorized}] *)
Definition irange_counter_of (stack : list Frame) : gmap string Z :=
  foldl (λ counters f,
           if f_vectorized f then counters else <[f_name f := f_counter f]> counters)
        ∅ stack.

(** [frozenset(f for f in stack if f.vectorized)] *)
Definition context_of (stack : list Frame) : gset Frame :=
  list_to_set (filter (λ f, f_vectorized f = true) stack).

(** The two dictionaries of one pass over a trace.  [enumerated_contexts] is a
    [defaultdict(set)]; it is kept as the list of its items, in insertion
    order. *)
Record enum_state := mkEnumState {
  irange_counters : gmap string (gmap string Z);
  enumerated_contexts : list (gset Frame * gset string)
}.

(** [enumerated_contexts[context].add(name)] *)
Fixpoint contexts_add (contexts : list (gset Frame * gset string))
    (context : gset Frame) (name : string) : list (gset Frame * gset string) :=
  match contexts with
  | [] => [(context, {[name]})]
  | (c, names) :: rest =>
      if decide (c = context) then (c, names ∪ {[name]}) :: rest
      else (c, names) :: contexts_add rest context name
  end.

(** [sorted(n for n in names
            if not _are_independent(irange_counter, irange_counters[n]))] *)
Definition dependent_names (set_iter : gset string → list string)
    (irange_counter : gmap string Z)
    (irange_counters : gmap string (gmap string Z))
    (names : gset string) : M (list string) :=
  kept ← foldM (λ kept n,
                  match irange_counters !! n with
                  | None => raise (KeyError n)
                  | Some counters =>
                      if _are_independent irange_counter counters
                      then mret kept else mret (kept ++ [n])
                  end) [] (set_iter names);
  mret (sorted kept).

(** The body of [for enumerated_context, names in enumerated_contexts.items()].
    The plate names of the message come out of [sorted], so the order in which
    the set difference is traversed does not show. *)
Definition check_enumerated_context (set_iter : gset string → list string)
    (role name : string) (context : gset Frame) (irange_counter : gmap string Z)
    (irange_counters : gmap string (gmap string Z))
    (item : gset Frame * gset string) : M unit :=
  let '(enumerated_context, names) := item in
  if negb (bool_decide (context ⊂ enumerated_context)) then mret tt else
  names ← dependent_names set_iter irange_counter irange_counters names;
  match names with
  | [] => mret tt
  | _ =>
      let diff := sorted (f_name <$> elements (enumerated_context ∖ context)) in
      warn (PossiblyInvalidDependency role name (sorted names) diff)
  end.

(** The body of [for name, site in trace.nodes.items()]. *)
Definition visit_site (set_iter : gset string → list string) (role : string)
    (enumerated_sites : gset string) (st : enum_state)
    (item : string * Site) : M enum_state :=
  let '(name, site) := item in
  if bool_decide (site_type site ≠ "sample") then mret st else
  let irange_counter := irange_counter_of (cond_indep_stack site) in
  let context := context_of (cond_indep_stack site) in
  for_each (enumerated_contexts st)
    (check_enumerated_context set_iter role name context irange_counter
       (irange_counters st));;
  mret {| irange_counters := <[name := irange_counter]> (irange_counters st);
          enumerated_contexts :=
            if bool_decide (name ∈ enumerated_sites)
            then contexts_add (enumerated_contexts st) context name
            else enumerated_contexts st |}.

(** One round of [for role, trace in [...]]: both dictionaries start empty. *)
Definition check_trace_enum (set_iter : gset string → list string) (role : string)
    (enumerated_sites : gset string) (trace : Trace) : M unit :=
  foldM (visit_site set_iter role enumerated_sites) (mkEnumState ∅ []) trace;;
  mret tt.

Definition enumerated_sites_of (guide_trace : Trace) : gset string :=
  names_where (λ site, is_sample site && truthy_str (enumerate (site_infer site)))
    guide_trace.

Definition check_traceenum_requirements (set_iter : gset string → list string)
    (model_trace guide_trace : Trace) : M unit :=
  let enumerated_sites := enumerated_sites_of guide_trace in
  for_each [("model", model_trace); ("guide", guide_trace)]
    (λ '(role, trace), check_trace_enum set_iter role enumerated_sites trace).

(** ** [torch_isnan] and [torch_isinf] *)

(** A [numbers.Number] is an [int] or a [float] here; a [float] is an IEEE 754
    binary64 value, in the Standard Library's specification of floats. *)
Inductive number :=
| PyInt (i : Z)
| PyFloat (x : spec_float).

(** The argument of the numeric guards: a number, or a tensor by the list of
    its elements. *)
Inductive value :=
| Number (x : number)
| Tensor (elems : list spec_float).

(** [i == x] for an [int] and a [float]: Python compares the exact values. *)
Definition int_float_eqb (i : Z) (x : spec_float) : bool :=
  match x with
  | S754_zero _ => i =? 0
  | S754_infinity _ | S754_nan => false
  | S754_finite s m e =>
      let sm := if s then Z.neg m else Z.pos m in
      if 0 <=? e then i =? sm * 2 ^ e else i * 2 ^ (- e) =? sm
  end.

(** [a == b] *)
Definition number_eqb (a b : number) : bool :=
  match a, b with
  | PyInt i, PyInt j => i =? j
  | PyInt i, PyFloat y => int_float_eqb i y
  | PyFloat x, PyInt j => int_float_eqb j x
  | PyFloat x, PyFloat y => SFeqb x y
  end.

(** [float('inf')] and [-float('inf')] *)
Definition float_inf : number := PyFloat (S754_infinity false).
Definition float_neg_inf : number := PyFloat (S754_infinity true).

(** The tensor runtime's elementwise NaN test, [torch.isnan]. *)
Definition float_isnan (x : spec_float) : bool :=
  match x with S754_nan => true | _ => false end.

(** [torch.isnan(x).any()] *)
Definition tensor_isnan_any (elems : list spec_float) : bool :=
  existsb float_isnan elems.

(** [(x == v).any()] for a tensor [x] and a float [v]. *)
Definition tensor_eq_any (elems : list spec_float) (v : spec_float) : bool :=
  existsb (λ e, SFeqb e v) elems.

Definition torch_isnan (x : value) : bool :=
  match x with
  | Number x => negb (number_eqb x x)
  | Tensor elems => tensor_isnan_any elems
  end.

Definition torch_isinf (x : value) : bool :=
  match x with
  | Number x => number_eqb x float_inf || number_eqb x float_neg_inf
  | Tensor elems =>
      tensor_eq_any elems (S754_infinity false) || tensor_eq_any elems (S754_infinity true)
  end.

(** ** [optional] *)

(** Generator bodies built from [yield] and [with]: what a function decorated
    with [contextmanager] may contain, as far as [optional] needs. *)
Inductive gen (CM : Type) :=
| Done
| Yield (rest : gen CM)
| With (context_manager : CM) (body rest : gen CM).
Arguments Done {CM}.
Arguments Yield {CM} rest.
Arguments With {CM} context_manager body rest.

Definition optional {CM} (context_manager : CM) (condition : bool) : gen CM :=
  if condition then With context_manager (Yield Done) Done
  else Yield Done.

(** What happens, in order, when a generator is driven to its end and the
    block it yields to completes normally. *)
Inductive event (CM : Type) :=
| Enter (context_manager : CM)
| Body
| Exit (context_manager : CM).
Arguments Enter {CM} context_manager.
Arguments Body {CM}.
Arguments Exit {CM} context_manager.

Fixpoint events {CM} (g : gen CM) : list (event CM) :=
  match g with
  | Done => []
  | Yield rest => Body :: events rest
  | With cm body rest => Enter cm :: events body ++ Exit cm :: events rest
  end.

(** Number of times the generator yields. *)
Fixpoint yields {CM} (g : gen CM) : nat :=
  match g with
  | Done => O
  | Yield rest => S (yields rest)
  | With _ body rest => (yields body + yields rest)%nat
  end.

(** Number of times the block that the generator yields to is run. *)
Fixpoint body_runs {CM} (es : list (event CM)) : nat :=
  match es with
  | [] => O
  | Body :: rest => S (body_runs rest)
  | _ :: rest => body_runs rest
  end.

(** The events up to the first [yield], and those after it. *)
Fixpoint to_first_yield {CM} (es : list (event CM))
    : option (list (event CM) * list (event CM)) :=
  match es with
  | [] => None
  | Body :: rest => Some ([], rest)
  | e :: rest => (λ '(before, after), (e :: before, after)) <$> to_first_yield rest
  end.

(** [with g: block] for a generator [g] wrapped by [contextmanager]:
    [__enter__] runs the generator to its first [yield] and fails if there is
    none; then the block runs; then [__exit__] resumes the generator, which
    has to end without yielding again. *)
Inductive with_result (CM : Type) :=
| Ran (before after : list (event CM))
| GeneratorDidntYield
| GeneratorDidntStop.
Arguments Ran {CM} before after.
Arguments GeneratorDidntYield {CM}.
Arguments GeneratorDidntStop {CM}.

Definition with_contextmanager {CM} (g : gen CM) : with_result CM :=
  match to_first_yield (events g) with
  | None => GeneratorDidntYield
  | Some (before, after) =>
      match body_runs after with
      | O => Ran before after
      | S _ => GeneratorDidntStop
      end
  end.

(** Context managers entered or exited at some point of a run. *)
Definition touched {CM} (es : list (event CM)) : list CM :=
  omap (λ e, match e with Enter cm | Exit cm => Some cm | Body => None end) es.

(** ** [warn_if_nan] and [warn_if_inf] *)

(** The argument of the warning guards: a number, or a tensor with its
    [requires_grad] flag. *)
Inductive guarded :=
| GNumber (x : number)
| GTensor (elems : list spec_float) (requires_grad : bool).

Definition value_of (v : guarded) : value :=
  match v with
  | GNumber x => Number x
  | GTensor elems _ => Tensor elems
  end.

(** [torch.is_tensor(value) and value.requires_grad] *)
Definition tracks_grad (v : guarded) : bool :=
  match v with
  | GNumber _ => false
  | GTensor _ requires_grad => requires_grad
  end.

(** The callbacks given to [value.register_hook]: each one, called later on
    the gradient, runs the guard that registered it with the same options. *)
Inductive hook :=
| NanHook (msg : string)
| InfHook (msg : string) (allow_posinf allow_neginf : bool).

(** What a guard does: the hooks it registers and the texts it passes to
    [warnings.warn], in order. *)
Record guard_effects := mkGuardEffects {
  registered : list hook;
  messages : list string
}.

(** ["Encountered <what>{}".format((': ' if msg else '.') + msg)] *)
Definition encountered (what msg : string) : string :=
  "Encountered " +:+ what +:+
  ((if String.eqb msg EmptyString then "." else ": ") +:+ msg).

Definition warn_if_nan (v : guarded) (msg : string) : guard_effects :=
  {| registered := if tracks_grad v then [NanHook msg] else [];
     messages := if torch_isnan (value_of v) then [encountered "NaN" msg] else [] |}.

(** [value == float('inf') if isinstance(value, numbers.Number)
     else (value == float('inf')).any()], and the same for [-float('inf')];
    [negative] selects the sign. *)
Definition equals_inf (v : guarded) (negative : bool) : bool :=
  match v with
  | GNumber x => number_eqb x (PyFloat (S754_infinity negative))
  | GTensor elems _ => tensor_eq_any elems (S754_infinity negative)
  end.

Definition warn_if_inf (v : guarded) (msg : string)
    (allow_posinf allow_neginf : bool) : guard_effects :=
  {| registered :=
       if tracks_grad v then [InfHook msg allow_posinf allow_neginf] else [];
     messages :=
       (if negb allow_posinf && equals_inf v false
        then [encountered "+inf" msg] else [])
       ++ (if negb allow_neginf && equals_inf v true
           then [encountered "-inf" msg] else []) |}.

(** A registered hook, called by the autodiff runtime on a gradient. *)
Definition run_hook (h : hook) (gradient : guarded) : guard_effects :=
  match h with
  | NanHook msg => warn_if_nan gradient msg
  | InfHook msg allow_posinf allow_neginf =>
      warn_if_inf gradient msg allow_posinf allow_neginf
  end.

(** ** [check_if_enumerated] *)

Definition newline : string := String (Ascii.ascii_of_nat 10) EmptyString.

(** [[name for name, site in guide_trace.nodes.items()
      if site["type"] == "sample" and site["infer"].get("enumerate")]] *)
Definition enumerated_site_list (guide_trace : Trace) : list string :=
  fst <$> filter (λ item, (is_sample item.2
                           && truthy_str (enumerate (site_infer item.2))) = true)
            guide_trace.

(** The texts passed to [warnings.warn].  In the source no comma separates the
    first two string literals of the list, so they are one literal, on which
    [.join(enumerated_sites)] is called. *)
Definition check_if_enumerated (guide_trace : Trace) : list string :=
  let enumerated_sites := enumerated_site_list guide_trace in
  match enumerated_sites with
  | [] => []
  | _ =>
      [String.concat newline
         [String.concat "Found sample sites configured for enumeration:, "
            enumerated_sites;
          "If you want to enumerate sites, you need to use TraceEnum_ELBO instead."]]
  end.

(** ** [deep_getattr] *)

(** [s.split(sep)] for a one-character separator. *)
Fixpoint split (sep : Ascii.ascii) (s : string) : list string :=
  match s with
  | EmptyString => [EmptyString]
  | String c rest =>
      if Ascii.eqb c sep then EmptyString :: split sep rest
      else match split sep rest with
           | part :: parts => String c part :: parts
           | [] => [String c EmptyString]
           end
  end.

(** The character of [name.split(".")]. *)
Definition dot : Ascii.ascii := Ascii.ascii_of_nat 46.

(** [functools.reduce(getattr, name.split("."), obj)], for objects of any
    type [Obj] with their [getattr]; [None] is the [AttributeError]. *)
Definition deep_getattr {Obj : Type} (getattr : Obj → string → option Obj)
    (obj : Obj) (name : string) : option Obj :=
  foldl (λ acc part, o ← acc; getattr o part) (Some obj) (split dot name).

(** ** Vocabulary of the statements *)

(** The entry [n] places from the right end has been claimed by a frame. *)
Definition claimed (expected_shape : list (option Z)) (n : nat) : Prop :=
  (1 ≤ n ≤ length expected_shape)%nat ∧
  ∃ size, expected_shape !! (length expected_shape - n)%nat = Some (Some size).

(** The dim-collision error raised at frame [f] of [site]. *)
Definition collision (site : Site) (f : Frame) : exn :=
  ValueError (DimCollision (site_name site) (f_name f)).

(** Frames whose [dim], when assigned, is negative: the invariant of the data
    model that [assert f.dim < 0] checks. *)
Definition negative_dim (f : Frame) : Prop := ∀ d, f_dim f = Some d → d < 0.

(** [len > max_plate_nesting], as a proposition. *)
Definition longer_than (len : nat) (max_plate_nesting : nesting) : Prop :=
  match max_plate_nesting with
  | Finite n => n < Z.of_nat len
  | Infinity => False
  end.

(** A nesting bound that is not negative. *)
Definition nonnegative (max_plate_nesting : nesting) : Prop :=
  match max_plate_nesting with
  | Finite n => 0 ≤ n
  | Infinity => True
  end.

(** The exceptions the loop over the frames can raise. *)
Definition frame_loop_exn (site : Site) (e : exn) : Prop :=
  e = AssertionError ∨ e = IndexError ∨ ∃ f, e = collision site f.

(** The current site's counter snapshot is not independent of the snapshot
    recorded for one of [names]. *)
Definition depends_on (irange_counter : gmap string Z)
    (irange_counters : gmap string (gmap string Z)) (names : gset string) : Prop :=
  ∃ n counters, n ∈ names ∧ irange_counters !! n = Some counters ∧
    _are_independent irange_counter counters = false.

(** An earlier sample site of the trace is enumerated, lies in a strictly
    larger vectorized context than [site], and its counter snapshot is not
    independent of that of [site]. *)
Definition should_precede (enumerated_sites : gset string) (earlier : Trace)
    (site : Site) : Prop :=
  ∃ e_name e_site,
    (e_name, e_site) ∈ earlier ∧ site_type e_site = "sample" ∧
    e_name ∈ enumerated_sites ∧
    context_of (cond_indep_stack site) ⊂ context_of (cond_indep_stack e_site) ∧
    _are_independent (irange_counter_of (cond_indep_stack site))
                     (irange_counter_of (cond_indep_stack e_site)) = false.

(** What the two dictionaries hold after the sites of [earlier]. *)
Record enum_inv (enumerated_sites : gset string) (earlier : Trace)
    (st : enum_state) : Prop := mkEnumInv {
  inv_counters : ∀ n site,
    (n, site) ∈ earlier → site_type site = "sample" →
    irange_counters st !! n = Some (irange_counter_of (cond_indep_stack site));
  inv_recorded : ∀ context names n,
    (context, names) ∈ enumerated_contexts st → n ∈ names →
    n ∈ enumerated_sites ∧
    ∃ site, (n, site) ∈ earlier ∧ site_type site = "sample" ∧
            context_of (cond_indep_stack site) = context;
  inv_records : ∀ n site,
    (n, site) ∈ earlier → site_type site = "sample" → n ∈ enumerated_sites →
    ∃ names, (context_of (cond_indep_stack site), names) ∈ enumerated_contexts st ∧
             n ∈ names
}.

(** The dictionaries after a sample site. *)
Definition next_state (enumerated_sites : gset string) (st : enum_state)
    (name : string) (site : Site) : enum_state :=
  {| irange_counters :=
       <[name := irange_counter_of (cond_indep_stack site)]> (irange_counters st);
     enumerated_contexts :=
       if bool_decide (name ∈ enumerated_sites)
       then contexts_add (enumerated_contexts st)
              (context_of (cond_indep_stack site)) name
       else enumerated_contexts st |}.

(** The warnings of one pass are about [role] and about sites of [trace]. *)
Definition about (role : string) (trace : Trace) (w : warning) : Prop :=
  ∃ n names plates, w = PossiblyInvalidDependency role n names plates ∧ n ∈ trace.*1.

(** An ordinary finite number: an [int], or a [float] that is neither NaN nor
    an infinity. *)
Definition finite_float (x : spec_float) : bool :=
  match x with
  | S754_zero _ | S754_finite _ _ _ => true
  | S754_infinity _ | S754_nan => false
  end.

Definition finite_number (x : number) : bool :=
  match x with
  | PyInt _ => true
  | PyFloat x => finite_float x
  end.

(** The largest [-dim] among the frames of a stack with an assigned [dim]. *)
Definition deepest_dim (stack : list Frame) : nat :=
  foldr (λ f deepest,
           match f_dim f with
           | Some d => Nat.max (Z.to_nat (- d)) deepest
           | None => deepest
           end) O stack.

(** The entry [n] places from the right end holds [size]. *)
Definition claimed_by (expected_shape : list (option Z)) (n : nat) (size : Z) : Prop :=
  (1 ≤ n ≤ length expected_shape)%nat ∧
  expected_shape !! (length expected_shape - n)%nat = Some (Some size).

(** [l1] is [l2] with some 1s added on the left. *)
Definition left_padded (l1 l2 : list Z) : Prop := ∃ k, l1 = replicate k 1 ++ l2.

(** The test of the last loop of the shape comparison: no pair of sizes
    differs once the two shapes are aligned on the right and the shorter one
    is completed with 1s. *)
Definition aligned (shape1 shape2 : list Z) : bool :=
  negb (existsb (λ p : Z * Z, bool_decide (p.1 ≠ p.2))
          (zip_longest 1 (reverse shape1) (reverse shape2))).

(** [bound1] is at most [bound2]. *)
Definition nesting_le (bound1 bound2 : nesting) : Prop :=
  match bound1, bound2 with
  | _, Infinity => True
  | Finite n1, Finite n2 => n1 ≤ n2
  | Infinity, Finite _ => False
  end.

(** ** Example inputs *)

(** The spec's example: an enumerated guide site [e] inside the vectorized
    plate [plateA], then a site [f] outside every plate. *)
Definition plateA : Frame := mkFrame "plateA" (Some (-1)) 3 0 true.
Definition site_e : Site :=
  mkSite "sample" "e" (mkFn "Categorical" (Some 0) (Some [3])) false
    (mkInfer None (Some "parallel") None) [plateA] [3].
Definition site_f : Site :=
  mkSite "sample" "f" (mkFn "Normal" (Some 0) (Some [])) false
    (mkInfer None None None) [] [].

(** * Properties *)

(** ** The effect monad *)

Lemma bind_raise {A B} (f : A → M B) (e : exn) : raise e ≫= f = raise e.
Proof. reflexivity. Qed.

Lemma bind_ret {A B} (f : A → M B) (a : A) : mret a ≫= f = f a.
Proof. unfold mret, M_ret, mbind, M_bind. by destruct (f a). Qed.

Lemma bind_value {A B} (ws : list warning) (a : A) (f : A → M B) :
  (ws, inr a) ≫= f = (ws ++ (f a).1, (f a).2).
Proof. unfold mbind, M_bind. by destruct (f a). Qed.

Lemma foldM_app {A B} (body : B → A → M B) (acc : B) (xs ys : list A) :
  foldM body acc (xs ++ ys) = foldM body acc xs ≫= λ acc', foldM body acc' ys.
Proof.
  revert acc. induction xs as [|x xs IH]; intros acc.
  - symmetry. apply (bind_ret (λ acc', foldM body acc' ys)).
  - simpl. destruct (body acc x) as [ws [e|acc']]; simpl; [done|].
    rewrite IH. destruct (foldM body acc' xs) as [ws' [e|acc'']]; simpl; [done|].
    destruct (foldM body acc'' ys) as [ws'' r]. by rewrite app_assoc.
Qed.

(** ** [check_site_shape] *)

Section expected_shape.
Variable site : Site.

Lemma py_index_negative (len : nat) (d : Z) :
  d < 0 → - Z.of_nat len ≤ d →
  py_index len d = Some (len - Z.to_nat (- d))%nat.
Proof.
  intros Hd Hlen. unfold py_index.
  destruct (0 <=? d) eqn:E0; [lia|]. simpl.
  destruct (d <? 0) eqn:E1; [|lia].
  destruct (- Z.of_nat len <=? d) eqn:E2; [|lia]. simpl. f_equal. lia.
Qed.

Lemma step_unassigned expected_shape f :
  f_dim f = None → expected_shape_step site expected_shape f = mret expected_shape.
Proof. intros Hf. unfold expected_shape_step. by rewrite Hf. Qed.

(** Left-padding keeps every entry at its distance from the right end. *)
Lemma pad_lookup (expected_shape : list (option Z)) (p n : nat) :
  (n ≤ length expected_shape)%nat →
  (replicate p None ++ expected_shape)
    !! (length (replicate p None ++ expected_shape) - n)%nat
  = expected_shape !! (length expected_shape - n)%nat.
Proof.
  intros Hn. rewrite length_app, length_replicate.
  rewrite lookup_app_r by (rewrite length_replicate; lia).
  rewrite length_replicate. f_equal. lia.
Qed.

(** What one iteration does for a frame with a negative [dim]. *)
Lemma step_assigned expected_shape f d :
  f_dim f = Some d → d < 0 →
  (claimed expected_shape (Z.to_nat (- d)) ∧
   expected_shape_step site expected_shape f = raise (collision site f))
  ∨ (¬ claimed expected_shape (Z.to_nat (- d)) ∧
     ∃ expected_shape',
       expected_shape_step site expected_shape f = mret expected_shape' ∧
       claimed expected_shape' (Z.to_nat (- d)) ∧
       ∀ n, claimed expected_shape n → claimed expected_shape' n).
Proof.
  intros Hf Hd. unfold expected_shape_step. rewrite Hf.
  destruct (d <? 0) eqn:E; [|lia]. simpl.
  set (n := Z.to_nat (- d)).
  set (padded := if Z.of_nat (length expected_shape) <? - d
                 then replicate (Z.to_nat (- d - Z.of_nat (length expected_shape))) None
                        ++ expected_shape
                 else expected_shape).
  assert (Hlen : (n ≤ length padded)%nat).
  { subst padded n. destruct (Z.of_nat (length expected_shape) <? - d) eqn:E'.
    - rewrite length_app, length_replicate. lia.
    - lia. }
  assert (Hkeep : ∀ k, (k ≤ length expected_shape)%nat →
            padded !! (length padded - k)%nat
            = expected_shape !! (length expected_shape - k)%nat).
  { intros k Hk. subst padded. destruct (Z.of_nat (length expected_shape) <? - d) eqn:E'; [by apply pad_lookup|done]. }
  assert (Hgrow : (length expected_shape ≤ length padded)%nat).
  { subst padded. destruct (Z.of_nat (length expected_shape) <? - d) eqn:E'; [rewrite length_app|]; lia. }
  assert (Hfresh : ∀ k, (length expected_shape < k ≤ length padded)%nat →
            padded !! (length padded - k)%nat = Some None).
  { intros k Hk. subst padded. destruct (Z.of_nat (length expected_shape) <? - d) eqn:E'; [|lia].
    rewrite length_app, length_replicate in *.
    rewrite lookup_app_l by (rewrite length_replicate; lia).
    apply lookup_replicate_2. lia. }
  unfold py_getitem, py_setitem.
  rewrite py_index_negative by lia. simpl. fold n.
  destruct (padded !! (length padded - n)%nat) as [[size|]|] eqn:Hget.
  - left. split; [|done].
    destruct (decide (n ≤ length expected_shape)%nat) as [Hn|Hn].
    + split; [lia|]. exists size. by rewrite <- Hkeep.
    + rewrite Hfresh in Hget by lia. done.
  - right. split.
    { intros [Hn [size Hsize]]. rewrite Hkeep in Hget by lia. congruence. }
    eexists. split; [done|]. split.
    + split; [rewrite length_insert; lia|]. exists (f_size f).
      rewrite length_insert. apply list_lookup_insert_eq. lia.
    + intros k [Hk [size Hsize]]. split; [rewrite length_insert; lia|].
      exists size. rewrite length_insert.
      destruct (decide (k = n)) as [->|Hne].
      * rewrite Hkeep in Hget by lia. congruence.
      * rewrite list_lookup_insert_ne by lia. by rewrite Hkeep by lia.
  - apply lookup_ge_None in Hget. lia.
Qed.

Lemma step_cases expected_shape f :
  negative_dim f →
  expected_shape_step site expected_shape f = raise (collision site f)
  ∨ (∃ expected_shape',
       expected_shape_step site expected_shape f = mret expected_shape' ∧
       (∀ d, f_dim f = Some d → claimed expected_shape' (Z.to_nat (- d))) ∧
       ∀ n, claimed expected_shape n → claimed expected_shape' n).
Proof.
  intros Hneg. destruct (f_dim f) as [d|] eqn:Hf.
  - destruct (step_assigned expected_shape f d Hf (Hneg d Hf))
      as [[_ ->]|(_ & e' & -> & Hd & Hkeep)]; [by left|].
    right. exists e'. split; [done|]. split; [|done]. by intros ? [= <-].
  - right. exists expected_shape. rewrite step_unassigned by done.
    split; [done|]. split; [done|auto].
Qed.

(** Once a position is claimed, a later frame with the same [dim] makes the
    loop raise the collision error, at that frame or before. *)
Lemma fold_claimed_collision stack : ∀ expected_shape f d,
  Forall negative_dim stack →
  f ∈ stack → f_dim f = Some d →
  claimed expected_shape (Z.to_nat (- d)) →
  ∃ f', f' ∈ stack ∧
    foldM (expected_shape_step site) expected_shape stack = raise (collision site f').
Proof.
  induction stack as [|f0 stack IH]; intros e f d Hwf Hin Hf Hcl.
  - by apply elem_of_nil in Hin.
  - apply Forall_cons in Hwf as [Hneg Hwf]. simpl.
    apply elem_of_cons in Hin as [->|Hin].
    + destruct (step_assigned e f0 d Hf (Hneg d Hf)) as [[_ ->]|[Hno _]]; [|done].
      exists f0. split; [left|done].
    + destruct (step_cases e f0 Hneg) as [->|(e' & -> & Hnew & Hkeep)].
      { exists f0. split; [left|done]. }
      rewrite bind_ret.
      destruct (IH e' f d Hwf Hin Hf (Hkeep _ Hcl)) as (f' & Hf' & ->).
      exists f'. split; [by right|done].
Qed.

Lemma fold_collision stack : ∀ expected_shape (i j : nat) f1 f2 d,
  Forall negative_dim stack →
  (i < j)%nat → stack !! i = Some f1 → stack !! j = Some f2 →
  f_dim f1 = Some d → f_dim f2 = Some d →
  ∃ f, f ∈ stack ∧
    foldM (expected_shape_step site) expected_shape stack = raise (collision site f).
Proof.
  induction stack as [|f0 stack IH]; intros e i j f1 f2 d Hwf Hij H1 H2 Hd1 Hd2.
  - done.
  - pose proof Hwf as Hwf0. apply Forall_cons in Hwf as [Hneg Hwf]. simpl.
    destruct (step_cases e f0 Hneg) as [->|(e' & -> & Hnew & Hkeep)].
    { exists f0. split; [left|done]. }
    rewrite bind_ret. destruct j as [|j]; [lia|]. simpl in H2.
    destruct i as [|i]; simpl in H1.
    + injection H1 as ->.
      destruct (fold_claimed_collision stack e' f2 d Hwf) as (f' & Hf' & ->);
        [by eapply list_elem_of_lookup_2|done|by apply Hnew|].
      exists f'. split; [by right|done].
    + destruct (IH e' i j f1 f2 d Hwf) as (f' & Hf' & ->); [lia|done..|].
      exists f'. split; [by right|done].
Qed.

End expected_shape.

Lemma for_each_ext {A} (xs : list A) (f g : A → M unit) :
  (∀ x, f x = g x) → for_each xs f = for_each xs g.
Proof. intros Hfg. induction xs as [|x xs IH]; simpl; [done|]. by rewrite Hfg, IH. Qed.

(** A loop whose body only tests its item raises at the first bad one. *)
Lemma for_each_guard {A} (xs : list A) (bad : A → bool) (e : exn) :
  for_each xs (λ x, if bad x then raise e else mret tt)
  = if existsb bad xs then raise e else mret tt.
Proof.
  induction xs as [|x xs IH]; simpl; [done|].
  destruct (bad x); simpl; [done|]. rewrite IH. by destruct (existsb bad xs).
Qed.

Lemma len_gt_spec (len : nat) (max_plate_nesting : nesting) :
  len_gt len max_plate_nesting = true ↔ longer_than len max_plate_nesting.
Proof. destruct max_plate_nesting; simpl; [apply Z.ltb_lt|done]. Qed.

Lemma length_fill_wildcards expected_shape :
  length (fill_wildcards expected_shape) = length expected_shape.
Proof. apply length_fmap. Qed.

Lemma step_outcomes site expected_shape f :
  (∃ expected_shape', expected_shape_step site expected_shape f = mret expected_shape')
  ∨ (∃ e, expected_shape_step site expected_shape f = raise e ∧ frame_loop_exn site e).
Proof.
  unfold expected_shape_step, frame_loop_exn.
  destruct (f_dim f) as [d|]; [|by left; eexists].
  destruct (negb (d <? 0)); [right; eauto|].
  destruct (py_getitem _ d) as [[size|]|]; [right; eauto 6| |right; eauto].
  destruct (py_setitem _ d _); [left|right]; eauto.
Qed.

Lemma compute_expected_shape_outcomes site :
  (∃ expected_shape, compute_expected_shape site = mret expected_shape)
  ∨ (∃ e, compute_expected_shape site = raise e ∧ frame_loop_exn site e).
Proof.
  unfold compute_expected_shape. generalize (@nil (option Z)).
  induction (cond_indep_stack site) as [|f stack IH]; intros acc; simpl.
  - left. by eexists.
  - destruct (step_outcomes site acc f) as [[acc' ->]|(e & -> & He)].
    + rewrite bind_ret. apply IH.
    + right. by exists e.
Qed.

Lemma zip_longest_nil_r {A} (fillvalue : A) (l : list A) :
  zip_longest fillvalue l [] = (λ a, (a, fillvalue)) <$> l.
Proof. by destruct l. Qed.

(** The comparison loop at the end of [check_site_shape]. *)
Lemma compare_sizes_outcomes (site_name : string) (expected actual : list Z)
    (pairs : list (Z * Z)) :
  let body := λ '(actual_size, expected_size),
    if negb (expected_size =? -1) && negb (expected_size =? actual_size)
    then raise (ValueError (InvalidLogProbShape site_name expected actual))
    else mret tt in
  for_each pairs body
  = if existsb (λ p, negb (p.2 =? -1) && negb (p.2 =? p.1)) pairs
    then raise (ValueError (InvalidLogProbShape site_name expected actual))
    else mret tt.
Proof.
  intros body. rewrite <- for_each_guard. apply for_each_ext. by intros [a e].
Qed.

(** C3: with frames [{dim=-2,size=5}, {dim=-1,size=3}] and
    [max_plate_nesting=2], [check_site_shape] returns for a [log_prob] of shape
    (5,3), and for shape (5,4) raises the invalid-log_prob-shape error, whose
    message shows the expected shape [5, 3] and the actual shape [5, 4]. *)
Theorem check_site_shape_two_plates (name : string) (fn : Fn) (observed : bool)
    (infer : Infer) (n1 n2 : string) (c1 c2 : Z) (v1 v2 : bool) :
  let stack := [mkFrame n1 (Some (-2)) 5 c1 v1; mkFrame n2 (Some (-1)) 3 c2 v2] in
  check_site_shape (mkSite "sample" name fn observed infer stack [5; 3]) (Finite 2)
    = mret tt
  ∧ check_site_shape (mkSite "sample" name fn observed infer stack [5; 4]) (Finite 2)
    = raise (ValueError (InvalidLogProbShape name [5; 3] [5; 4])).
Proof. split; reflexivity. Qed.

(** C4: when every assigned [dim] of the stack is negative and two frames of
    the stack have the same assigned [dim], [check_site_shape] raises the
    dim-collision error, which names the site and a frame of the stack. *)
Theorem check_site_shape_dim_collision (site : Site) (max_plate_nesting : nesting)
    (i j : nat) (f1 f2 : Frame) (d : Z) :
  Forall negative_dim (cond_indep_stack site) →
  (i < j)%nat →
  cond_indep_stack site !! i = Some f1 →
  cond_indep_stack site !! j = Some f2 →
  f_dim f1 = Some d → f_dim f2 = Some d →
  ∃ f, f ∈ cond_indep_stack site ∧
    check_site_shape site max_plate_nesting
    = raise (ValueError (DimCollision (site_name site) (f_name f))).
Proof.
  intros Hwf Hij H1 H2 Hd1 Hd2.
  destruct (fold_collision site _ [] i j f1 f2 d Hwf Hij H1 H2 Hd1 Hd2)
    as (f & Hin & Hfold).
  exists f. split; [done|].
  unfold check_site_shape, compute_expected_shape. by rewrite Hfold.
Qed.

Lemma check_site_shape_dim_collision_witness :
  let site := mkSite "sample" "x" (mkFn "Normal" None None) false
                (mkInfer None None None)
                [mkFrame "a" (Some (-1)) 5 0 true; mkFrame "b" (Some (-1)) 3 0 true]
                [5] in
  ∃ f, f ∈ cond_indep_stack site ∧
    check_site_shape site (Finite 1)
    = raise (ValueError (DimCollision (site_name site) (f_name f))).
Proof.
  intros site.
  apply (check_site_shape_dim_collision site (Finite 1) 0 1
           (mkFrame "a" (Some (-1)) 5 0 true) (mkFrame "b" (Some (-1)) 3 0 true) (-1)).
  - repeat constructor; intros d [= <-]; lia.
  - lia.
  - reflexivity.
  - reflexivity.
  - reflexivity.
  - reflexivity.
Defined.

(** C5: [check_site_shape] raises the plate-stack-overflow error exactly when
    the loop over the frames yields an expected shape longer than
    [max_plate_nesting]; the error then names the site and suggests the length
    of the expected shape. *)
Theorem check_site_shape_overflow (site : Site) (max_plate_nesting : nesting)
    (name : string) (at_least : nat) :
  outcome (check_site_shape site max_plate_nesting)
    = inl (ValueError (PlateStackOverflow name at_least))
  ↔ ∃ expected_shape,
      compute_expected_shape site = mret expected_shape ∧
      longer_than (length (fill_wildcards expected_shape)) max_plate_nesting ∧
      name = site_name site ∧
      at_least = length (fill_wildcards expected_shape).
Proof.
  unfold check_site_shape.
  destruct (compute_expected_shape_outcomes site) as [[es ->]|(e & -> & He)].
  - rewrite bind_ret.
    destruct (len_gt (length (fill_wildcards es)) max_plate_nesting) eqn:Hgt.
    + simpl. split.
      * intros [= <- <-]. exists es. by rewrite <- len_gt_spec.
      * intros (es' & [= <-] & _ & -> & ->). done.
    + rewrite compare_sizes_outcomes. split.
      * destruct (existsb _ _); discriminate.
      * intros (es' & [= <-] & Hlong & _). apply len_gt_spec in Hlong. congruence.
  - rewrite bind_raise. simpl. split.
    + intros [= ->]. destruct He as [?|[?|[f ?]]]; discriminate.
    + intros (es & ? & _). discriminate.
Qed.

(** C1, as the code has it: for a site none of whose frames has an assigned
    [dim], and a [max_plate_nesting] that is not negative, the expected shape
    is empty and every entry of the actual shape (cut to its rightmost
    [max_plate_nesting] entries) is compared with the fill value 1.  The check
    returns when all of them are 1 and raises the invalid-log_prob-shape error
    otherwise, as it does for shape (3,) under [max_plate_nesting=1]. *)
Theorem check_site_shape_no_dims (site : Site) (max_plate_nesting : nesting) :
  Forall (λ f, f_dim f = None) (cond_indep_stack site) →
  nonnegative max_plate_nesting →
  let actual_shape := rightmost max_plate_nesting (log_prob_shape site) in
  (Forall (λ size, size = 1) actual_shape →
   check_site_shape site max_plate_nesting = mret tt)
  ∧ (¬ Forall (λ size, size = 1) actual_shape →
     check_site_shape site max_plate_nesting
     = raise (ValueError (InvalidLogProbShape (site_name site) [] actual_shape))).
Proof.
  intros Hnone Hnn actual_shape.
  assert (Hexp : compute_expected_shape site = mret []).
  { unfold compute_expected_shape.
    enough (H : ∀ acc, foldM (expected_shape_step site) acc (cond_indep_stack site)
                       = mret acc) by apply H.
    induction Hnone as [|f stack Hf _ IH]; intros acc; simpl; [done|].
    rewrite step_unassigned by done. rewrite bind_ret. apply IH. }
  assert (Hex : existsb (λ p : Z * Z, negb (p.2 =? -1) && negb (p.2 =? p.1))
                  (zip_longest 1 (reverse actual_shape) (reverse [])) = false
                ↔ Forall (λ size, size = 1) actual_shape).
  { rewrite <- (Forall_reverse _ actual_shape). change (reverse []) with (@nil Z).
    rewrite zip_longest_nil_r.
    induction (reverse actual_shape) as [|a l IH].
    - split; [constructor|done].
    - rewrite fmap_cons, Forall_cons, <- IH. cbn [existsb fst snd].
      change (1 =? -1) with false. rewrite orb_false_iff.
      destruct (Z.eqb_spec 1 a) as [<-|Hne]; cbn [negb andb]; [tauto|].
      split; [intros [? _]; done|intros [-> _]; done]. }
  unfold check_site_shape. rewrite Hexp, bind_ret.
  change (fill_wildcards []) with (@nil Z).
  replace (len_gt (length []) max_plate_nesting) with false
    by (destruct max_plate_nesting; simpl in *; [symmetry; apply Z.ltb_ge; lia|done]).
  fold actual_shape. rewrite compare_sizes_outcomes. split.
  - intros H. apply Hex in H. by rewrite H.
  - intros H. destruct (existsb _ _) eqn:E; [done|].
    exfalso. by apply H, Hex.
Qed.

Lemma check_site_shape_no_dims_witness :
  check_site_shape
    (mkSite "sample" "x" (mkFn "Normal" None None) false (mkInfer None None None) [] [3])
    (Finite 1)
  = raise (ValueError (InvalidLogProbShape "x" [] [3])).
Proof.
  apply (check_site_shape_no_dims
           (mkSite "sample" "x" (mkFn "Normal" None None) false
              (mkInfer None None None) [] [3]) (Finite 1)).
  - constructor.
  - simpl. lia.
  - simpl. intros H. inversion H. lia.
Defined.

(** C1, as stated, fails: a [log_prob] of shape (3,), no frames and
    [max_plate_nesting=1] make [check_site_shape] raise. *)
Lemma check_site_shape_no_frames_raises :
  let site := mkSite "sample" "x" (mkFn "Normal" None None) false
                (mkInfer None None None) [] [3] in
  check_site_shape site (Finite 1)
    = raise (ValueError (InvalidLogProbShape "x" [] [3]))
  ∧ check_site_shape site (Finite 1) ≠ mret tt.
Proof. split; [reflexivity|discriminate]. Qed.

(** ** Outcomes of composed computations *)

Lemma outcome_bind {A B} (m : M A) (f : A → M B) :
  outcome (m ≫= f)
  = match outcome m with inl e => inl e | inr a => outcome (f a) end.
Proof.
  destruct m as [ws [e|a]]; simpl; [done|].
  unfold outcome. simpl. by destruct (f a).
Qed.

Lemma warnings_bind {A B} (m : M A) (f : A → M B) :
  warnings_of (m ≫= f)
  = warnings_of m ++ match outcome m with inl _ => [] | inr a => warnings_of (f a) end.
Proof.
  destruct m as [ws [e|a]]; simpl.
  - unfold warnings_of. simpl. by rewrite app_nil_r.
  - unfold warnings_of. simpl. by destruct (f a).
Qed.

Lemma outcome_warn_if (c : bool) (w : warning) : outcome (warn_if c w) = inr tt.
Proof. by destruct c. Qed.

(** An exception of a loop is the exception of one of its iterations. *)
Lemma for_each_raises {A} (xs : list A) (body : A → M unit) (e : exn) :
  outcome (for_each xs body) = inl e → ∃ x, x ∈ xs ∧ outcome (body x) = inl e.
Proof.
  induction xs as [|x xs IH]; simpl; [done|].
  rewrite outcome_bind. destruct (outcome (body x)) as [e'|[]] eqn:Hx.
  - intros [= ->]. exists x. split; [left|done].
  - intros H. destruct (IH H) as (y & Hy & He). exists y. split; [by right|done].
Qed.

(** A loop with a raising iteration raises. *)
Lemma for_each_one_raises {A} (xs : list A) (body : A → M unit) (x : A) (e : exn) :
  x ∈ xs → outcome (body x) = inl e → ∃ e', outcome (for_each xs body) = inl e'.
Proof.
  intros Hin Hx. induction xs as [|y xs IH]; [by apply elem_of_nil in Hin|].
  simpl. rewrite outcome_bind. destruct (outcome (body y)) as [e'|[]] eqn:Hy.
  - by exists e'.
  - apply elem_of_cons in Hin as [->|Hin]; [congruence|by apply IH].
Qed.

(** ** [check_traces_match] and [check_model_guide_match] *)

Lemma nodes_getitem_Some trace name site :
  nodes_get trace name = Some site → nodes_getitem trace name = mret site.
Proof. intros H. unfold nodes_getitem. by rewrite H. Qed.

Lemma check_event_dims_outcomes name model_site guide_site :
  check_event_dims name model_site guide_site = mret tt
  ∨ ∃ d1 d2, fn_event_dim (site_fn model_site) = Some d1 ∧
             fn_event_dim (site_fn guide_site) = Some d2 ∧ d1 ≠ d2 ∧
             check_event_dims name model_site guide_site
             = raise (ValueError (EventDimsDisagree name d1 d2)).
Proof.
  unfold check_event_dims.
  destruct (fn_event_dim (site_fn model_site)) as [d1|]; [|by left].
  destruct (fn_event_dim (site_fn guide_site)) as [d2|]; [|by left].
  case_bool_decide; [right; eauto 7|by left].
Qed.

Lemma check_shapes_outcomes name max_plate_nesting model_site guide_site :
  check_shapes name max_plate_nesting model_site guide_site = mret tt
  ∨ ∃ s1 s2, check_shapes name max_plate_nesting model_site guide_site
             = raise (ValueError (ShapesDisagree name s1 s2)).
Proof.
  unfold check_shapes.
  destruct (fn_shape (site_fn model_site)) as [s1|]; [|by left].
  destruct (fn_shape (site_fn guide_site)) as [s2|]; [|by left].
  case_bool_decide; [by left|]. case_bool_decide; [by left|].
  rewrite (for_each_ext _ _
             (λ p, if bool_decide (p.1 ≠ p.2)
                   then raise (ValueError
                                 (ShapesDisagree name (rightmost max_plate_nesting s1)
                                    (rightmost max_plate_nesting s2)))
                   else mret tt)) by (by intros [a b]).
  rewrite for_each_guard. destruct (existsb _ _); [right; eauto|by left].
Qed.

(** The exceptions of one iteration over a matched site name. *)
Lemma check_matched_site_raises model_trace guide_trace max_plate_nesting name e :
  outcome (check_matched_site model_trace guide_trace max_plate_nesting name) = inl e →
  e = KeyError name
  ∨ (∃ d1 d2, e = ValueError (EventDimsDisagree name d1 d2))
  ∨ (∃ s1 s2, e = ValueError (ShapesDisagree name s1 s2)).
Proof.
  unfold check_matched_site, nodes_getitem.
  destruct (nodes_get model_trace name) as [model_site|];
    [rewrite bind_ret|intros [= <-]; by left].
  destruct (nodes_get guide_trace name) as [guide_site|];
    [rewrite bind_ret|intros [= <-]; by left].
  rewrite outcome_bind.
  destruct (check_event_dims_outcomes name model_site guide_site)
    as [->|(d1 & d2 & _ & _ & _ & ->)]; simpl.
  - destruct (check_shapes_outcomes name max_plate_nesting model_site guide_site)
      as [->|(s1 & s2 & ->)]; [done|].
    intros [= <-]. right. right. eauto.
  - intros [= <-]. right. left. eauto.
Qed.

(** The exceptions of [check_model_guide_match] are those of its loop. *)
Lemma check_model_guide_match_outcome set_iter model_trace guide_trace max_plate_nesting :
  outcome (check_model_guide_match set_iter model_trace guide_trace max_plate_nesting)
  = outcome (for_each
               (set_iter (model_vars_of model_trace ∩ guide_vars_of guide_trace))
               (check_matched_site model_trace guide_trace max_plate_nesting)).
Proof.
  unfold check_model_guide_match. cbv zeta.
  repeat (rewrite outcome_bind, outcome_warn_if; cbn beta iota).
  by destruct (outcome (for_each _ _)) as [e|[]].
Qed.

(** C6: when the model and guide shapes of a site present in both traces are
    equal once each is cut to its rightmost [max_plate_nesting] entries, the
    shape comparison of that site returns, and [check_model_guide_match] does
    not raise the shape-mismatch error for that site, whatever the order in
    which the common names are visited. *)
Theorem check_model_guide_match_truncated_shapes
    (set_iter : gset string → list string) (model_trace guide_trace : Trace)
    (max_plate_nesting : nesting) (name : string) (model_site guide_site : Site)
    (model_shape guide_shape : list Z) :
  nodes_get model_trace name = Some model_site →
  nodes_get guide_trace name = Some guide_site →
  fn_shape (site_fn model_site) = Some model_shape →
  fn_shape (site_fn guide_site) = Some guide_shape →
  rightmost max_plate_nesting model_shape = rightmost max_plate_nesting guide_shape →
  check_shapes name max_plate_nesting model_site guide_site = mret tt
  ∧ ∀ s1 s2,
      outcome (check_model_guide_match set_iter model_trace guide_trace max_plate_nesting)
      ≠ inl (ValueError (ShapesDisagree name s1 s2)).
Proof.
  intros Hm Hg Hms Hgs Heq.
  assert (Hok : check_shapes name max_plate_nesting model_site guide_site = mret tt).
  { unfold check_shapes. rewrite Hms, Hgs. case_bool_decide; [done|].
    by rewrite bool_decide_eq_true_2. }
  split; [done|]. intros s1 s2 Hraise.
  rewrite check_model_guide_match_outcome in Hraise.
  apply for_each_raises in Hraise as (name' & _ & Hbody).
  assert (name' = name) as ->.
  { apply check_matched_site_raises in Hbody
      as [[=]|[(? & ? & [=])|(? & ? & [= -> _ _])]]. done. }
  unfold check_matched_site in Hbody.
  rewrite (nodes_getitem_Some _ _ _ Hm), bind_ret in Hbody.
  rewrite (nodes_getitem_Some _ _ _ Hg), bind_ret in Hbody.
  rewrite outcome_bind, Hok in Hbody.
  destruct (check_event_dims_outcomes name model_site guide_site)
    as [Hev|(d1 & d2 & _ & _ & _ & Hev)]; rewrite Hev in Hbody; discriminate.
Qed.

Lemma check_model_guide_match_truncated_shapes_witness :
  let site shape :=
    mkSite "sample" "y" (mkFn "Normal" (Some 0) (Some shape)) false
      (mkInfer None None None) [] [] in
  check_shapes "y" (Finite 1) (site [4; 3]) (site [3]) = mret tt
  ∧ ∀ s1 s2,
      outcome (check_model_guide_match elements
                 [("y", site [4; 3])] [("y", site [3])] (Finite 1))
      ≠ inl (ValueError (ShapesDisagree "y" s1 s2)).
Proof.
  intros site.
  apply (check_model_guide_match_truncated_shapes elements
           [("y", site [4; 3])] [("y", site [3])] (Finite 1) "y"
           (site [4; 3]) (site [3]) [4; 3] [3]); reflexivity.
Defined.

(** The spec's example as a whole call: shapes (4,3) and (3,) under
    [max_plate_nesting=1]. *)
Example check_model_guide_match_4_3_vs_3 :
  let site shape :=
    mkSite "sample" "y" (mkFn "Normal" (Some 0) (Some shape)) false
      (mkInfer None None None) [] [] in
  check_model_guide_match elements [("y", site [4; 3])] [("y", site [3])] (Finite 1)
  = mret tt.
Proof. by vm_compute. Qed.

Section set_iteration.
(** The order in which a [for] loop visits a set of names: some enumeration
    of its elements. *)
Variable set_iter : gset string → list string.
Hypothesis set_iter_perm : ∀ X, set_iter X ≡ₚ elements X.

Lemma elem_of_set_iter (X : gset string) (x : string) : x ∈ set_iter X ↔ x ∈ X.
Proof. rewrite (set_iter_perm X). apply elem_of_elements. Qed.

(** C2, on the spec's own example: with sample sites [a], [b] in the first
    trace and [a], [c] in the second, [check_traces_match] emits the warning
    that lists both sets, and then raises [KeyError] when the loop over the
    names of the first trace looks [b] up in the second. *)
Theorem check_traces_match_ab_ac :
  let site name :=
    (name, mkSite "sample" name (mkFn "Normal" None None) false
             (mkInfer None None None) [] []) in
  check_traces_match set_iter [site "a"; site "b"] [site "a"; site "c"]
  = ([ModelVarsChanged {[ "a"; "b" ]} {[ "a"; "c" ]}], inl (KeyError "b")).
Proof.
  intros site. unfold check_traces_match.
  set (vars1 := names_where is_sample [site "a"; site "b"]).
  assert (Hiter : set_iter vars1 = ["a"; "b"] ∨ set_iter vars1 = ["b"; "a"]).
  { pose proof (set_iter_perm vars1) as Hperm.
    assert (Hel : elements vars1 ≡ₚ ["a"; "b"]).
    { replace vars1 with ({[ "a"; "b" ]} : gset string) by (by vm_compute).
      rewrite elements_union_singleton by set_solver.
      by rewrite elements_singleton. }
    rewrite Hel in Hperm. symmetry in Hperm.
    by apply Permutation_length_2_inv in Hperm. }
  destruct Hiter as [-> | ->]; by vm_compute.
Qed.

(** C7: for a name in both [model_vars] and [guide_vars] whose two
    distributions expose [event_dim], the iteration of the loop at that name
    raises the event-dim-mismatch error exactly when the two values differ.
    For the whole call: that error for this name is raised only if they
    differ, and if they differ the call raises. *)
Theorem check_model_guide_match_event_dims
    (model_trace guide_trace : Trace) (max_plate_nesting : nesting)
    (name : string) (model_site guide_site : Site)
    (model_event_dim guide_event_dim : Z) :
  name ∈ model_vars_of model_trace ∩ guide_vars_of guide_trace →
  nodes_get model_trace name = Some model_site →
  nodes_get guide_trace name = Some guide_site →
  fn_event_dim (site_fn model_site) = Some model_event_dim →
  fn_event_dim (site_fn guide_site) = Some guide_event_dim →
  (outcome (check_matched_site model_trace guide_trace max_plate_nesting name)
     = inl (ValueError (EventDimsDisagree name model_event_dim guide_event_dim))
   ↔ model_event_dim ≠ guide_event_dim)
  ∧ (∀ d1 d2,
       outcome (check_model_guide_match set_iter model_trace guide_trace
                  max_plate_nesting)
       = inl (ValueError (EventDimsDisagree name d1 d2)) →
       d1 = model_event_dim ∧ d2 = guide_event_dim
       ∧ model_event_dim ≠ guide_event_dim)
  ∧ (model_event_dim ≠ guide_event_dim →
     ∃ e, outcome (check_model_guide_match set_iter model_trace guide_trace
                     max_plate_nesting) = inl e).
Proof.
  intros Hin Hm Hg Hem Heg.
  assert (Hbody : ∀ d1 d2,
    outcome (check_matched_site model_trace guide_trace max_plate_nesting name)
      = inl (ValueError (EventDimsDisagree name d1 d2))
    ↔ d1 = model_event_dim ∧ d2 = guide_event_dim
      ∧ model_event_dim ≠ guide_event_dim).
  { intros d1 d2. unfold check_matched_site.
    rewrite (nodes_getitem_Some _ _ _ Hm), bind_ret.
    rewrite (nodes_getitem_Some _ _ _ Hg), bind_ret.
    rewrite outcome_bind. unfold check_event_dims. rewrite Hem, Heg.
    case_bool_decide as Hne; simpl.
    - split; [by intros [= -> ->]|by intros (-> & -> & _)].
    - split; [|by intros (_ & _ & ?)].
      destruct (check_shapes_outcomes name max_plate_nesting model_site guide_site)
        as [->|(s1 & s2 & ->)]; discriminate. }
  split; [|split].
  - rewrite Hbody. tauto.
  - intros d1 d2 Hraise. rewrite check_model_guide_match_outcome in Hraise.
    apply for_each_raises in Hraise as (name' & _ & Hraise).
    assert (name' = name) as ->.
    { apply check_matched_site_raises in Hraise
        as [[=]|[(? & ? & [= -> _ _])|(? & ? & [=])]]. done. }
    by apply Hbody.
  - intros Hne. rewrite check_model_guide_match_outcome.
    eapply for_each_one_raises.
    + by apply elem_of_set_iter.
    + by apply Hbody.
Qed.

End set_iteration.

Lemma check_traces_match_ab_ac_witness :
  let site name :=
    (name, mkSite "sample" name (mkFn "Normal" None None) false
             (mkInfer None None None) [] []) in
  check_traces_match elements [site "a"; site "b"] [site "a"; site "c"]
  = ([ModelVarsChanged {[ "a"; "b" ]} {[ "a"; "c" ]}], inl (KeyError "b")).
Proof. apply (check_traces_match_ab_ac elements). intros X. reflexivity. Defined.

Lemma check_model_guide_match_event_dims_witness :
  let site dim :=
    mkSite "sample" "z" (mkFn "Normal" (Some dim) None) false
      (mkInfer None None None) [] [] in
  (outcome (check_matched_site [("z", site 1)] [("z", site 0)] Infinity "z")
     = inl (ValueError (EventDimsDisagree "z" 1 0))
   ↔ 1 ≠ 0)
  ∧ (∀ d1 d2,
       outcome (check_model_guide_match elements [("z", site 1)] [("z", site 0)] Infinity)
       = inl (ValueError (EventDimsDisagree "z" d1 d2)) →
       d1 = 1 ∧ d2 = 0 ∧ 1 ≠ 0)
  ∧ (1 ≠ 0 →
     ∃ e, outcome (check_model_guide_match elements [("z", site 1)] [("z", site 0)]
                     Infinity) = inl e).
Proof.
  intros site.
  apply (check_model_guide_match_event_dims elements (λ X, reflexivity _)
           [("z", site 1)] [("z", site 0)] Infinity "z" (site 1) (site 0) 1 0).
  - by vm_compute.
  - reflexivity.
  - reflexivity.
  - reflexivity.
  - reflexivity.
Defined.

(** ** [check_traceenum_requirements] *)

Lemma sorted_nil (names : list string) : sorted names = [] ↔ names = [].
Proof.
  unfold sorted. split; [|by intros ->].
  intros H. apply Permutation_nil_r. rewrite <- H. symmetry. apply merge_sort_Permutation.
Qed.

Lemma contexts_add_elem contexts context name c names :
  (c, names) ∈ contexts_add contexts context name →
  (c, names) ∈ contexts
  ∨ (c = context ∧ names = {[name]})
  ∨ (c = context ∧ ∃ names', (c, names') ∈ contexts ∧ names = names' ∪ {[name]}).
Proof.
  induction contexts as [|[c0 names0] contexts IH]; simpl.
  - intros [= -> ->]%list_elem_of_singleton. right. by left.
  - case_decide as Hc.
    + intros [[= -> ->]|Hin]%elem_of_cons.
      * right. right. split; [done|]. exists names0. split; [left|done].
      * left. by right.
    + intros [[= -> ->]|Hin]%elem_of_cons; [left; left|].
      destruct (IH Hin) as [?|[?|(-> & names' & ? & ->)]].
      * left. by right.
      * right. by left.
      * right. right. split; [done|]. exists names'. split; [by right|done].
Qed.

Lemma contexts_add_keeps contexts context name c names n :
  (c, names) ∈ contexts → n ∈ names →
  ∃ names', (c, names') ∈ contexts_add contexts context name ∧ n ∈ names'.
Proof.
  induction contexts as [|[c0 names0] contexts IH]; simpl.
  - by intros ?%elem_of_nil.
  - intros [[= -> ->]|Hin]%elem_of_cons Hn.
    + case_decide as Hc.
      * exists (names0 ∪ {[name]}). split; [left|by apply elem_of_union_l].
      * exists names0. split; [left|done].
    + destruct (IH Hin Hn) as (names' & Hin' & Hn').
      case_decide as Hc.
      * exists names. split; [by right|done].
      * exists names'. split; [by right|done].
Qed.

Lemma contexts_add_records contexts context name :
  ∃ names, (context, names) ∈ contexts_add contexts context name ∧ name ∈ names.
Proof.
  induction contexts as [|[c0 names0] contexts IH]; simpl.
  - exists {[name]}. split; [left|by apply elem_of_singleton].
  - case_decide as Hc.
    + subst c0. exists (names0 ∪ {[name]}).
      split; [left|by apply elem_of_union_r, elem_of_singleton].
    + destruct IH as (names & Hin & Hn). exists names. split; [by right|done].
Qed.

Section traceenum.
Variable set_iter : gset string → list string.
Hypothesis set_iter_perm : ∀ X, set_iter X ≡ₚ elements X.

Variable role : string.
Variable enumerated_sites : gset string.

(** The filter inside [dependent_names] keeps the names whose snapshot is
    not independent of the current one. *)
Lemma dependent_names_fold (irange_counter : gmap string Z)
    (irange_counters : gmap string (gmap string Z)) (l : list string) :
  (∀ n, n ∈ l → is_Some (irange_counters !! n)) →
  ∀ acc, ∃ kept,
    foldM (λ kept n,
             match irange_counters !! n with
             | None => raise (KeyError n)
             | Some counters =>
                 if _are_independent irange_counter counters
                 then mret kept else mret (kept ++ [n])
             end) acc l = mret (acc ++ kept)
    ∧ ∀ n, n ∈ kept ↔
           n ∈ l ∧ ∃ counters, irange_counters !! n = Some counters ∧
                     _are_independent irange_counter counters = false.
Proof.
  induction l as [|n0 l IH]; intros Hkeys acc.
  - exists []. split; [by rewrite app_nil_r|].
    intros n. split; [by intros ?%elem_of_nil|by intros [?%elem_of_nil _]].
  - destruct (Hkeys n0) as [counters Hc]; [left|].
    cbn [foldM]. rewrite Hc.
    destruct (_are_independent irange_counter counters) eqn:Hind; rewrite bind_ret.
    + destruct (IH (λ n H, Hkeys n (list_elem_of_further _ _ _ H)) acc)
        as (kept & -> & Hkept).
      exists kept. split; [done|]. intros n. rewrite Hkept, elem_of_cons.
      split; [intros [? ?]; eauto|].
      intros [[->|?] (c & Hc' & Hi)]; [congruence|eauto].
    + destruct (IH (λ n H, Hkeys n (list_elem_of_further _ _ _ H)) (acc ++ [n0]))
        as (kept & -> & Hkept).
      exists (n0 :: kept). split; [by rewrite <- app_assoc|].
      intros n. rewrite !elem_of_cons, Hkept.
      split; [intros [->|[? ?]]; eauto|].
      intros [[->|?] ?]; eauto.
Qed.

Lemma dependent_names_spec (irange_counter : gmap string Z)
    (irange_counters : gmap string (gmap string Z)) (names : gset string) :
  (∀ n, n ∈ names → is_Some (irange_counters !! n)) →
  ∃ kept,
    dependent_names set_iter irange_counter irange_counters names = mret (sorted kept)
    ∧ (kept ≠ [] ↔ depends_on irange_counter irange_counters names).
Proof.
  intros Hkeys. unfold dependent_names.
  destruct (dependent_names_fold irange_counter irange_counters (set_iter names))
    with (acc := @nil string) as (kept & -> & Hkept).
  { intros n Hn. apply Hkeys. by rewrite elem_of_set_iter in Hn. }
  exists kept. rewrite bind_ret. split; [done|]. unfold depends_on. split.
  - destruct kept as [|n kept]; [done|]. intros _.
    destruct (proj1 (Hkept n)) as (Hn & c & Hc & Hi); [left|].
    rewrite elem_of_set_iter in Hn by done. eauto.
  - intros (n & c & Hn & Hc & Hi) ->.
    apply (elem_of_nil n), Hkept. rewrite elem_of_set_iter by done. eauto.
Qed.

(** One enumerated context: at most one warning, about the current site. *)
Lemma check_enumerated_context_spec (name : string) (context : gset Frame)
    (irange_counter : gmap string Z)
    (irange_counters : gmap string (gmap string Z))
    (enumerated_context : gset Frame) (names : gset string) :
  (∀ n, n ∈ names → is_Some (irange_counters !! n)) →
  ∃ ws,
    check_enumerated_context set_iter role name context irange_counter
      irange_counters (enumerated_context, names) = (ws, inr tt)
    ∧ (∀ w, w ∈ ws → ∃ ns ps, w = PossiblyInvalidDependency role name ns ps)
    ∧ (ws ≠ [] ↔ context ⊂ enumerated_context
                 ∧ depends_on irange_counter irange_counters names).
Proof.
  intros Hkeys. unfold check_enumerated_context.
  case_bool_decide as Hsub; simpl.
  - destruct (dependent_names_spec irange_counter irange_counters names Hkeys)
      as (kept & -> & Hkept).
    rewrite bind_ret.
    destruct (sorted kept) as [|n ns] eqn:Hs.
    + exists []. split; [done|]. split; [by intros ? ?%elem_of_nil|].
      apply (proj1 (sorted_nil kept)) in Hs. split; [done|]. intros [_ Hd].
      destruct (proj2 Hkept Hd Hs).
    + eexists. split; [done|]. split.
      * intros w ->%list_elem_of_singleton. eauto.
      * split; [|done]. intros _. split; [done|]. apply Hkept.
        intros ->. discriminate.
  - exists []. split; [done|]. split; [by intros ? ?%elem_of_nil|].
    split; [done|]. by intros [? _].
Qed.

Lemma check_enumerated_contexts_spec (name : string) (context : gset Frame)
    (irange_counter : gmap string Z)
    (irange_counters : gmap string (gmap string Z))
    (contexts : list (gset Frame * gset string)) :
  (∀ c names n, (c, names) ∈ contexts → n ∈ names →
                is_Some (irange_counters !! n)) →
  ∃ ws,
    for_each contexts
      (check_enumerated_context set_iter role name context irange_counter
         irange_counters) = (ws, inr tt)
    ∧ (∀ w, w ∈ ws → ∃ ns ps, w = PossiblyInvalidDependency role name ns ps)
    ∧ (ws ≠ [] ↔ ∃ c names, (c, names) ∈ contexts ∧ context ⊂ c
                   ∧ depends_on irange_counter irange_counters names).
Proof.
  induction contexts as [|[c0 names0] contexts IH]; intros Hkeys.
  - exists []. split; [done|]. split; [by intros ? ?%elem_of_nil|].
    split; [done|]. by intros (? & ? & ?%elem_of_nil & _).
  - destruct (check_enumerated_context_spec name context irange_counter
                irange_counters c0 names0) as (ws0 & Hrun0 & Habout0 & Hws0).
    { intros n Hn. apply (Hkeys c0 names0); [left|done]. }
    destruct IH as (ws & Hrun & Habout & Hws).
    { intros c names n Hin. apply (Hkeys c). by right. }
    exists (ws0 ++ ws). cbn [for_each]. rewrite Hrun0. cbn. rewrite Hrun.
    split; [done|]. split.
    + intros w [?|?]%elem_of_app; eauto.
    + split.
      * intros Hne. destruct ws0 as [|w0 ws0].
        -- destruct (proj1 Hws Hne) as (c & names & Hin & ?).
           exists c, names. split; [by right|done].
        -- exists c0, names0. split; [left|]. by apply Hws0.
      * intros (c & names & [[= -> ->]|Hin]%elem_of_cons & Hsub & Hdep).
        -- assert (ws0 ≠ []) by (apply Hws0; done). by destruct ws0.
        -- assert (ws ≠ []) by (apply Hws; eauto). destruct ws0, ws; done.
Qed.

(** One site of the trace. *)
Lemma visit_site_other st name site :
  site_type site ≠ "sample" →
  visit_site set_iter role enumerated_sites st (name, site) = mret st.
Proof. intros H. unfold visit_site. by rewrite bool_decide_eq_true_2. Qed.

Lemma visit_site_sample st name site :
  site_type site = "sample" →
  (∀ c names n, (c, names) ∈ enumerated_contexts st → n ∈ names →
                is_Some (irange_counters st !! n)) →
  ∃ ws,
    visit_site set_iter role enumerated_sites st (name, site)
    = (ws, inr (next_state enumerated_sites st name site))
    ∧ (∀ w, w ∈ ws → ∃ ns ps, w = PossiblyInvalidDependency role name ns ps)
    ∧ (ws ≠ [] ↔ ∃ c names, (c, names) ∈ enumerated_contexts st
                   ∧ context_of (cond_indep_stack site) ⊂ c
                   ∧ depends_on (irange_counter_of (cond_indep_stack site))
                       (irange_counters st) names).
Proof.
  intros Hsample Hkeys. unfold visit_site.
  rewrite bool_decide_eq_false_2 by (by intros ?).
  destruct (check_enumerated_contexts_spec name
              (context_of (cond_indep_stack site))
              (irange_counter_of (cond_indep_stack site))
              (irange_counters st) (enumerated_contexts st) Hkeys)
    as (ws & -> & Habout & Hws).
  exists ws. split; [|done]. cbn. by rewrite app_nil_r.
Qed.

(** *** The dictionaries along the trace *)

Lemma enum_inv_empty : enum_inv enumerated_sites [] (mkEnumState ∅ []).
Proof.
  split; simpl.
  - by intros ? ? ?%elem_of_nil.
  - by intros ? ? ? ?%elem_of_nil.
  - by intros ? ? ?%elem_of_nil.
Qed.

Lemma enum_inv_keys earlier st c names n :
  enum_inv enumerated_sites earlier st →
  (c, names) ∈ enumerated_contexts st → n ∈ names →
  is_Some (irange_counters st !! n).
Proof.
  intros Hinv Hin Hn.
  destruct (inv_recorded _ _ _ Hinv c names n Hin Hn) as (_ & site & Hsite & Hs & _).
  rewrite (inv_counters _ _ _ Hinv n site Hsite Hs). by eexists.
Qed.

Lemma enum_inv_other earlier st name site :
  site_type site ≠ "sample" →
  enum_inv enumerated_sites earlier st →
  enum_inv enumerated_sites (earlier ++ [(name, site)]) st.
Proof.
  intros Hother Hinv. split.
  - intros n s [Hin|[= -> ->]%list_elem_of_singleton]%elem_of_app Hs; [|done].
    by apply (inv_counters _ _ _ Hinv).
  - intros c names n Hin Hn.
    destruct (inv_recorded _ _ _ Hinv c names n Hin Hn) as (? & s & ? & ? & ?).
    split; [done|]. exists s. split; [|done]. apply elem_of_app. by left.
  - intros n s [Hin|[= -> ->]%list_elem_of_singleton]%elem_of_app Hs Hen; [|done].
    by apply (inv_records _ _ _ Hinv).
Qed.

Lemma enum_inv_sample earlier st name site :
  name ∉ earlier.*1 →
  site_type site = "sample" →
  enum_inv enumerated_sites earlier st →
  enum_inv enumerated_sites (earlier ++ [(name, site)])
    (next_state enumerated_sites st name site).
Proof.
  intros Hfresh Hsample Hinv.
  assert (Hne : ∀ n s, (n, s) ∈ earlier → n ≠ name).
  { intros n s Hin ->. apply Hfresh. apply list_elem_of_fmap. by exists (name, s). }
  split; simpl.
  - intros n s [Hin|[= -> ->]%list_elem_of_singleton]%elem_of_app Hs.
    + rewrite lookup_insert_ne by (intros <-; by eapply Hne).
      by apply (inv_counters _ _ _ Hinv).
    + by rewrite lookup_insert_eq.
  - intros c names n Hin Hn.
    assert (Hold : ∀ names', (c, names') ∈ enumerated_contexts st → n ∈ names' →
              n ∈ enumerated_sites ∧
              ∃ s, (n, s) ∈ earlier ++ [(name, site)] ∧ site_type s = "sample" ∧
                   context_of (cond_indep_stack s) = c).
    { intros names' Hin' Hn'.
      destruct (inv_recorded _ _ _ Hinv c names' n Hin' Hn') as (? & s & ? & ? & ?).
      split; [done|]. exists s. split; [|done]. apply elem_of_app. by left. }
    case_bool_decide as Hen; [|by eapply Hold].
    assert (Hnew : c = context_of (cond_indep_stack site) → n = name →
              n ∈ enumerated_sites ∧
              ∃ s, (n, s) ∈ earlier ++ [(name, site)] ∧ site_type s = "sample" ∧
                   context_of (cond_indep_stack s) = c).
    { intros -> ->. split; [done|]. exists site. split; [|done].
      apply elem_of_app. right. left. }
    apply contexts_add_elem in Hin
      as [Hin|[[-> ->]|(-> & names' & Hin & ->)]].
    + by eapply Hold.
    + apply Hnew; [done|]. by apply elem_of_singleton in Hn.
    + apply elem_of_union in Hn as [Hn|Hn%elem_of_singleton].
      * by eapply Hold.
      * by apply Hnew.
  - intros n s [Hin|[= -> ->]%list_elem_of_singleton]%elem_of_app Hs Hen.
    + destruct (inv_records _ _ _ Hinv n s Hin Hs Hen) as (names & Hin' & Hn).
      case_bool_decide; [|by exists names]. by eapply contexts_add_keeps.
    + rewrite bool_decide_eq_true_2 by done. apply contexts_add_records.
Qed.

(** A pass over [trace], started in a state that reflects [earlier]: it
    does not raise, ends in a state that reflects all the sites seen, and
    its warnings are about sites of [trace]. *)
Lemma visit_sites_spec (trace : Trace) : ∀ (earlier : Trace) (st : enum_state),
  NoDup (earlier ++ trace).*1 →
  enum_inv enumerated_sites earlier st →
  ∃ ws st',
    foldM (visit_site set_iter role enumerated_sites) st trace = (ws, inr st')
    ∧ enum_inv enumerated_sites (earlier ++ trace) st'
    ∧ ∀ w, w ∈ ws → about role trace w.
Proof.
  induction trace as [|[name site] trace IH]; intros earlier st Hnodup Hinv.
  - exists [], st. rewrite app_nil_r. split; [done|]. split; [done|].
    by intros ? ?%elem_of_nil.
  - assert (Hfresh : name ∉ earlier.*1).
    { rewrite fmap_app, fmap_cons in Hnodup.
      apply NoDup_app in Hnodup as (_ & Hdisj & _).
      intros Hin. apply (Hdisj name Hin). left. }
    assert (Hnodup' : NoDup ((earlier ++ [(name, site)]) ++ trace).*1).
    { by rewrite <- app_assoc. }
    destruct (decide (site_type site = "sample")) as [Hsample|Hother].
    + destruct (visit_site_sample st name site Hsample) as (ws0 & Hstep & Habout & _).
      { intros c names n. by apply (enum_inv_keys earlier). }
      destruct (IH _ _ Hnodup' (enum_inv_sample _ _ _ _ Hfresh Hsample Hinv))
        as (ws & st' & Hrun & Hinv' & Habout').
      exists (ws0 ++ ws), st'. cbn [foldM]. rewrite Hstep. cbn. rewrite Hrun.
      split; [done|]. split; [by rewrite <- app_assoc in Hinv'|].
      intros w [Hw|Hw]%elem_of_app.
      * destruct (Habout w Hw) as (ns & ps & ->). exists name, ns, ps.
        split; [done|]. left.
      * destruct (Habout' w Hw) as (n & ns & ps & -> & Hn). exists n, ns, ps.
        split; [done|]. by right.
    + destruct (IH _ _ Hnodup' (enum_inv_other _ _ name _ Hother Hinv))
        as (ws & st' & Hrun & Hinv' & Habout').
      exists ws, st'. cbn [foldM]. rewrite visit_site_other by done.
      rewrite bind_ret. split; [done|].
      split; [by rewrite <- app_assoc in Hinv'|].
      intros w Hw. destruct (Habout' w Hw) as (n & ns & ps & -> & Hn).
      exists n, ns, ps. split; [done|]. by right.
Qed.

(** At a sample site, the test of the loop over the recorded contexts, read
    on the trace. *)
Lemma recorded_should_precede earlier st site :
  enum_inv enumerated_sites earlier st →
  (∃ c names, (c, names) ∈ enumerated_contexts st
     ∧ context_of (cond_indep_stack site) ⊂ c
     ∧ depends_on (irange_counter_of (cond_indep_stack site))
         (irange_counters st) names)
  ↔ should_precede enumerated_sites earlier site.
Proof.
  intros Hinv. unfold should_precede, depends_on. split.
  - intros (c & names & Hin & Hsub & n & counters & Hn & Hc & Hind).
    destruct (inv_recorded _ _ _ Hinv c names n Hin Hn) as (Hen & s & Hs & Htype & <-).
    rewrite (inv_counters _ _ _ Hinv n s Hs Htype) in Hc. injection Hc as <-.
    by exists n, s.
  - intros (n & s & Hs & Htype & Hen & Hsub & Hind).
    destruct (inv_records _ _ _ Hinv n s Hs Htype Hen) as (names & Hin & Hn).
    exists (context_of (cond_indep_stack s)), names. split; [done|]. split; [done|].
    exists n, (irange_counter_of (cond_indep_stack s)).
    split; [done|]. split; [|done]. by apply (inv_counters _ _ _ Hinv).
Qed.

(** One pass: no exception, and a warning about a sample site exactly when
    the site should have preceded an earlier enumerated site. *)
Lemma check_trace_enum_spec (trace earlier later : Trace) (name : string)
    (site : Site) :
  NoDup trace.*1 →
  trace = earlier ++ (name, site) :: later →
  site_type site = "sample" →
  ∃ ws,
    check_trace_enum set_iter role enumerated_sites trace = (ws, inr tt)
    ∧ (∀ w, w ∈ ws → about role trace w)
    ∧ ((∃ names plates, PossiblyInvalidDependency role name names plates ∈ ws)
       ↔ should_precede enumerated_sites earlier site).
Proof.
  intros Hnodup -> Hsample. unfold check_trace_enum. rewrite foldM_app.
  pose proof Hnodup as Hparts. rewrite fmap_app, fmap_cons in Hparts.
  apply NoDup_app in Hparts as (Hnd1 & Hdisj & Hnd2).
  apply NoDup_cons in Hnd2 as [Hlater Hnd2].
  destruct (visit_sites_spec earlier [] (mkEnumState ∅ []))
    as (ws1 & st1 & Hrun1 & Hinv1 & Habout1); [done|apply enum_inv_empty|].
  simpl in Hinv1.
  destruct (visit_site_sample st1 name site Hsample) as (ws0 & Hstep & Habout0 & Hws0).
  { intros c names n. by apply (enum_inv_keys earlier). }
  destruct (visit_sites_spec later (earlier ++ [(name, site)])
              (next_state enumerated_sites st1 name site))
    as (ws2 & st2 & Hrun2 & _ & Habout2).
  { by rewrite <- app_assoc. }
  { apply enum_inv_sample; [|done..]. intros Hin. apply (Hdisj name Hin). left. }
  exists (ws1 ++ ws0 ++ ws2).
  rewrite Hrun1, bind_value. cbn [foldM]. rewrite Hstep, bind_value, Hrun2.
  cbn [fst snd]. rewrite bind_value. cbn [fst snd mret M_ret].
  rewrite app_nil_r. split; [done|]. split.
  - intros w [Hw|[Hw|Hw]%elem_of_app]%elem_of_app.
    + destruct (Habout1 w Hw) as (n & ns & ps & -> & Hn). exists n, ns, ps.
      split; [done|]. rewrite fmap_app. apply elem_of_app. by left.
    + destruct (Habout0 w Hw) as (ns & ps & ->). exists name, ns, ps.
      split; [done|]. rewrite fmap_app, fmap_cons. apply elem_of_app. right. left.
    + destruct (Habout2 w Hw) as (n & ns & ps & -> & Hn). exists n, ns, ps.
      split; [done|]. rewrite fmap_app, fmap_cons. apply elem_of_app.
      right. by right.
  - rewrite <- (recorded_should_precede earlier st1 site Hinv1), <- Hws0. split.
    + intros (ns & ps & [Hw|[Hw|Hw]%elem_of_app]%elem_of_app).
      * destruct (Habout1 _ Hw) as (n & ? & ? & [= <- _ _] & Hn).
        destruct (Hdisj name Hn). left.
      * intros ->. by apply elem_of_nil in Hw.
      * destruct (Habout2 _ Hw) as (n & ? & ? & [= <- _ _] & Hn). done.
    + intros Hne. destruct ws0 as [|w ws0]; [done|].
      destruct (Habout0 w) as (ns & ps & ->); [left|].
      exists ns, ps. apply elem_of_app. right. left.
Qed.

Lemma check_trace_enum_runs (trace : Trace) :
  NoDup trace.*1 →
  ∃ ws,
    check_trace_enum set_iter role enumerated_sites trace = (ws, inr tt)
    ∧ ∀ w, w ∈ ws → about role trace w.
Proof.
  intros Hnodup. unfold check_trace_enum.
  destruct (visit_sites_spec trace [] (mkEnumState ∅ []))
    as (ws & st & -> & _ & Habout); [done|apply enum_inv_empty|].
  exists ws. rewrite bind_value. cbn [fst snd mret M_ret].
  by rewrite app_nil_r.
Qed.

End traceenum.

(** C9: [check_traceenum_requirements] never raises, and in the pass over the
    model trace or over the guide trace it warns about a sample site exactly
    when an earlier sample site of that trace is enumerated (by the guide),
    was recorded under a vectorized context that strictly contains the
    context of the current site, and has a counter snapshot that is not
    independent of the current one. *)
Theorem check_traceenum_requirements_warns
    (set_iter : gset string → list string) (model_trace guide_trace : Trace)
    (role : string) (trace earlier later : Trace) (name : string) (site : Site) :
  (∀ X, set_iter X ≡ₚ elements X) →
  NoDup model_trace.*1 → NoDup guide_trace.*1 →
  (role, trace) ∈ [("model", model_trace); ("guide", guide_trace)] →
  trace = earlier ++ (name, site) :: later →
  site_type site = "sample" →
  outcome (check_traceenum_requirements set_iter model_trace guide_trace) = inr tt
  ∧ ((∃ names plates,
        PossiblyInvalidDependency role name names plates
        ∈ warnings_of (check_traceenum_requirements set_iter model_trace guide_trace))
     ↔ should_precede (enumerated_sites_of guide_trace) earlier site).
Proof.
  intros Hperm Hmodel Hguide Hrole Htrace Hsample.
  unfold check_traceenum_requirements. cbn [for_each].
  apply elem_of_cons in Hrole as [[= -> ->]|[= -> ->]%list_elem_of_singleton].
  - destruct (check_trace_enum_spec set_iter Hperm "model"
                (enumerated_sites_of guide_trace) model_trace earlier later name site)
      as (ws & -> & _ & Hws); [done..|].
    destruct (check_trace_enum_runs set_iter Hperm "guide"
                (enumerated_sites_of guide_trace) guide_trace Hguide)
      as (ws' & -> & Habout).
    rewrite !bind_value. cbn [fst snd mret M_ret warnings_of outcome].
    split; [done|]. rewrite !app_nil_r, <- Hws. split.
    + intros (ns & ps & [Hw|Hw]%elem_of_app); [eauto|].
      by destruct (Habout _ Hw) as (? & ? & ? & [=] & _).
    + intros (ns & ps & Hw). exists ns, ps. apply elem_of_app. by left.
  - destruct (check_trace_enum_runs set_iter Hperm "model"
                (enumerated_sites_of guide_trace) model_trace Hmodel)
      as (ws' & -> & Habout).
    destruct (check_trace_enum_spec set_iter Hperm "guide"
                (enumerated_sites_of guide_trace) guide_trace earlier later name site)
      as (ws & -> & _ & Hws); [done..|].
    rewrite !bind_value. cbn [fst snd mret M_ret warnings_of outcome].
    split; [done|]. rewrite !app_nil_r, <- Hws. split.
    + intros (ns & ps & [Hw|Hw]%elem_of_app); [|eauto].
      by destruct (Habout _ Hw) as (? & ? & ? & [=] & _).
    + intros (ns & ps & Hw). exists ns, ps. apply elem_of_app. by right.
Qed.

(** On the example, the guide pass warns that [f] should precede [e]. *)
Example check_traceenum_requirements_e_f :
  check_traceenum_requirements elements [] [("e", site_e); ("f", site_f)]
  = ([PossiblyInvalidDependency "guide" "f" ["e"] ["plateA"]], inr tt).
Proof. by vm_compute. Qed.

Lemma check_traceenum_requirements_warns_witness :
  outcome (check_traceenum_requirements elements [] [("e", site_e); ("f", site_f)])
    = inr tt
  ∧ ((∃ names plates,
        PossiblyInvalidDependency "guide" "f" names plates
        ∈ warnings_of (check_traceenum_requirements elements []
                         [("e", site_e); ("f", site_f)]))
     ↔ should_precede (enumerated_sites_of [("e", site_e); ("f", site_f)])
         [("e", site_e)] site_f).
Proof.
  apply (check_traceenum_requirements_warns elements []
           [("e", site_e); ("f", site_f)] "guide"
           [("e", site_e); ("f", site_f)] [("e", site_e)] [] "f" site_f).
  - intros X. reflexivity.
  - by apply (bool_decide_unpack _).
  - by apply (bool_decide_unpack _).
  - apply list_elem_of_further, list_elem_of_here.
  - reflexivity.
  - reflexivity.
Defined.

(** ** [torch_isnan] and [torch_isinf] *)

Lemma SFeqb_refl (x : spec_float) : SFeqb x x = negb (float_isnan x).
Proof.
  destruct x as [s|s| |s m e]; simpl; try done.
  - by destruct s.
  - unfold SFeqb, SFcompare. rewrite Z.compare_refl, Pos.compare_cont_refl.
    by destruct s.
Qed.

Lemma SFeqb_infinity (x : spec_float) (s : bool) :
  SFeqb x (S754_infinity s) = true ↔ x = S754_infinity s.
Proof.
  destruct x as [s'|s'| |s' m e], s; try destruct s'; simpl; split; done.
Qed.

Lemma number_eqb_infinity (x : number) (s : bool) :
  number_eqb x (PyFloat (S754_infinity s)) = true ↔ x = PyFloat (S754_infinity s).
Proof.
  destruct x as [i|x]; simpl; [done|].
  rewrite SFeqb_infinity. split; [by intros ->|by intros [= ->]].
Qed.

Lemma tensor_eq_any_infinity (elems : list spec_float) (s : bool) :
  tensor_eq_any elems (S754_infinity s) = true ↔ S754_infinity s ∈ elems.
Proof.
  unfold tensor_eq_any. rewrite existsb_exists. split.
  - intros (e & Hin & ->%SFeqb_infinity). by apply list_elem_of_In.
  - intros Hin. exists (S754_infinity s). split; [by apply list_elem_of_In|].
    by apply SFeqb_infinity.
Qed.

(** C8: on a number [torch_isnan] is [x != x], which holds of NaN only, and
    on a tensor it tells whether some element is NaN; on a number
    [torch_isinf] tells whether [x] is [float('inf')] or [-float('inf')], and
    on a tensor whether some element is.  So [torch_isnan(float('nan'))] and
    [torch_isinf(float('inf'))] are true, and both functions are false on
    finite numbers and on tensors of finite elements. *)
Theorem torch_isnan_isinf_spec :
  (∀ x, torch_isnan (Number x) = negb (number_eqb x x))
  ∧ (∀ x, torch_isnan (Number x) = true ↔ x = PyFloat S754_nan)
  ∧ (∀ elems, torch_isnan (Tensor elems) = true ↔ S754_nan ∈ elems)
  ∧ (∀ x, torch_isinf (Number x)
          = number_eqb x float_inf || number_eqb x float_neg_inf)
  ∧ (∀ x, torch_isinf (Number x) = true ↔ x = float_inf ∨ x = float_neg_inf)
  ∧ (∀ elems, torch_isinf (Tensor elems) = true
              ↔ S754_infinity false ∈ elems ∨ S754_infinity true ∈ elems)
  ∧ torch_isnan (Number (PyFloat S754_nan)) = true
  ∧ torch_isinf (Number float_inf) = true
  ∧ (∀ x, finite_number x = true →
          torch_isnan (Number x) = false ∧ torch_isinf (Number x) = false)
  ∧ (∀ elems, forallb finite_float elems = true →
              torch_isnan (Tensor elems) = false ∧ torch_isinf (Tensor elems) = false).
Proof.
  assert (Hnan : ∀ x, torch_isnan (Number x) = true ↔ x = PyFloat S754_nan).
  { intros [i|x]; simpl.
    - rewrite Z.eqb_refl. split; discriminate.
    - rewrite SFeqb_refl, negb_involutive. destruct x; split; done. }
  assert (Hnans : ∀ elems, torch_isnan (Tensor elems) = true ↔ S754_nan ∈ elems).
  { intros elems. simpl. unfold tensor_isnan_any. rewrite existsb_exists. split.
    - intros (e & Hin & He). destruct e; try done. by apply list_elem_of_In.
    - intros Hin. exists S754_nan. split; [by apply list_elem_of_In|done]. }
  assert (Hinf : ∀ x, torch_isinf (Number x) = true
                      ↔ x = float_inf ∨ x = float_neg_inf).
  { intros x. simpl. rewrite orb_true_iff. unfold float_inf, float_neg_inf.
    by rewrite !number_eqb_infinity. }
  assert (Hinfs : ∀ elems, torch_isinf (Tensor elems) = true
                    ↔ S754_infinity false ∈ elems ∨ S754_infinity true ∈ elems).
  { intros elems. simpl. by rewrite orb_true_iff, !tensor_eq_any_infinity. }
  repeat split; try done; try apply Hnan; try apply Hnans; try apply Hinf;
    try apply Hinfs.
  - apply not_true_is_false. intros ->%Hnan. discriminate.
  - apply not_true_is_false. intros [->| ->]%Hinf; discriminate.
  - apply not_true_is_false. intros Hin%Hnans.
    rewrite forallb_forall in H. apply list_elem_of_In, H in Hin. discriminate.
  - apply not_true_is_false. rewrite forallb_forall in H.
    intros [Hin|Hin]%Hinfs; apply list_elem_of_In, H in Hin; discriminate.
Qed.

(** ** [optional] *)

Lemma body_runs_app {CM} (es1 es2 : list (event CM)) :
  body_runs (es1 ++ es2) = (body_runs es1 + body_runs es2)%nat.
Proof.
  induction es1 as [|[cm| |cm] es1 IH]; simpl; [done|done|by rewrite IH|done].
Qed.

(** The block runs once per [yield] of the generator. *)
Lemma body_runs_events {CM} (g : gen CM) : body_runs (events g) = yields g.
Proof.
  induction g as [|rest IH|cm body IHbody rest IHrest]; simpl.
  - done.
  - by rewrite IH.
  - rewrite body_runs_app. simpl. by rewrite IHbody, IHrest.
Qed.

(** C10: the generator of [optional] yields exactly once, so the block under
    [with optional(...)] runs once and the [contextmanager] protocol is met.
    When [condition] is false nothing else happens: no context manager is
    entered or exited.  When it is true the wrapped context manager is entered
    before the block and exited after it. *)
Theorem optional_spec {CM : Type} (context_manager : CM) (condition : bool) :
  yields (optional context_manager condition) = 1%nat
  ∧ body_runs (events (optional context_manager condition)) = 1%nat
  ∧ (condition = false →
     events (optional context_manager condition) = [Body]
     ∧ touched (events (optional context_manager condition)) = [])
  ∧ (condition = true →
     events (optional context_manager condition)
     = [Enter context_manager; Body; Exit context_manager])
  ∧ with_contextmanager (optional context_manager condition)
    = if condition then Ran [Enter context_manager] [Exit context_manager]
      else Ran [] [].
Proof.
  destruct condition; simpl; repeat split; try done.
Qed.

(** * Further properties *)

(** ** [check_site_shape]: exceptions, expected length, what a pass means *)

(** The shape of a successful iteration of the frame loop. *)
Lemma step_success_form site expected_shape f d expected_shape' :
  f_dim f = Some d →
  expected_shape_step site expected_shape f = mret expected_shape' →
  d < 0 ∧
  let n := Z.to_nat (- d) in
  let padded := replicate (n - length expected_shape) None ++ expected_shape in
  padded !! (length padded - n)%nat = Some None ∧
  expected_shape' = <[(length padded - n)%nat := Some (f_size f)]> padded.
Proof.
  intros Hf. unfold expected_shape_step. rewrite Hf.
  destruct (d <? 0) eqn:Hd; [|discriminate]. apply Z.ltb_lt in Hd. simpl.
  assert (Hpad : (if Z.of_nat (length expected_shape) <? - d
                  then replicate (Z.to_nat (- d - Z.of_nat (length expected_shape))) None
                         ++ expected_shape
                  else expected_shape)
                 = replicate (Z.to_nat (- d) - length expected_shape) None
                     ++ expected_shape).
  { destruct (Z.ltb_spec (Z.of_nat (length expected_shape)) (- d)).
    - do 2 f_equal. lia.
    - by replace (Z.to_nat (- d) - length expected_shape)%nat with O by lia. }
  rewrite Hpad.
  set (padded := replicate (Z.to_nat (- d) - length expected_shape) None
                   ++ expected_shape).
  assert (Hlen : (Z.to_nat (- d) ≤ length padded)%nat).
  { subst padded. rewrite length_app, length_replicate. lia. }
  unfold py_getitem, py_setitem. rewrite py_index_negative by lia. simpl.
  destruct (padded !! (length padded - Z.to_nat (- d))%nat) as [[size|]|] eqn:Hget;
    [discriminate| |discriminate].
  intros [= <-]. done.
Qed.

Lemma step_exceptions site expected_shape f e :
  expected_shape_step site expected_shape f = raise e →
  (e = AssertionError ∧ ∃ d, f_dim f = Some d ∧ 0 ≤ d) ∨ e = collision site f.
Proof.
  destruct (f_dim f) as [d|] eqn:Hf; [|by rewrite step_unassigned].
  destruct (Z.lt_ge_cases d 0) as [Hd|Hd].
  - destruct (step_assigned site expected_shape f d Hf Hd)
      as [[_ ->]|(_ & e' & -> & _)]; [|done].
    intros [= <-]. by right.
  - unfold expected_shape_step. rewrite Hf.
    destruct (Z.ltb_spec d 0); [lia|]. simpl. intros [= <-]. left. eauto.
Qed.

Lemma step_returns_or_raises site expected_shape f :
  (∃ expected_shape', expected_shape_step site expected_shape f = mret expected_shape')
  ∨ ∃ e, expected_shape_step site expected_shape f = raise e.
Proof.
  destruct (step_outcomes site expected_shape f) as [?|(e & ? & _)]; eauto.
Qed.

(** The frame loop, from any starting list: what it raises, how long its
    result is, and what its result holds. *)
Lemma frame_loop_spec site stack : ∀ acc,
  (∃ e, foldM (expected_shape_step site) acc stack = raise e ∧
        ((e = AssertionError ∧ ∃ f d, f ∈ stack ∧ f_dim f = Some d ∧ 0 ≤ d)
         ∨ ∃ f, f ∈ stack ∧ e = collision site f))
  ∨ (∃ expected_shape,
       foldM (expected_shape_step site) acc stack = mret expected_shape ∧
       length expected_shape = Nat.max (length acc) (deepest_dim stack) ∧
       (∀ n size, claimed_by acc n size → claimed_by expected_shape n size) ∧
       (∀ f d, f ∈ stack → f_dim f = Some d →
               d < 0 ∧ claimed_by expected_shape (Z.to_nat (- d)) (f_size f))).
Proof.
  induction stack as [|f stack IH]; intros acc.
  - right. exists acc. simpl. split; [done|]. split; [lia|]. split; [done|].
    by intros ? ? ?%elem_of_nil.
  - cbn [foldM].
    destruct (step_returns_or_raises site acc f) as [[acc' Hstep]|[e Hstep]].
    + rewrite Hstep, bind_ret.
      assert (Hacc' : length acc' = Nat.max (length acc)
                        match f_dim f with Some d => Z.to_nat (- d) | None => O end
              ∧ (∀ n size, claimed_by acc n size → claimed_by acc' n size)
              ∧ (∀ d, f_dim f = Some d →
                      d < 0 ∧ claimed_by acc' (Z.to_nat (- d)) (f_size f))).
      { destruct (f_dim f) as [d|] eqn:Hf.
        - destruct (step_success_form site acc f d acc' Hf Hstep)
            as (Hd & Hfree & ->).
          set (n := Z.to_nat (- d)) in *.
          set (padded := replicate (n - length acc) None ++ acc) in *.
          assert (Hlen : length padded = Nat.max (length acc) n).
          { subst padded. rewrite length_app, length_replicate. lia. }
          split; [by rewrite length_insert|]. split.
          + intros k size [Hk Hsize]. split; [rewrite length_insert; lia|].
            rewrite length_insert.
            assert (Hold : padded !! (length padded - k)%nat = Some (Some size)).
            { subst padded. by rewrite pad_lookup by lia. }
            destruct (decide (k = n)) as [->|Hne]; [congruence|].
            by rewrite list_lookup_insert_ne by lia.
          + intros ? [= <-]. split; [done|]. split; [rewrite length_insert; lia|].
            rewrite length_insert. apply list_lookup_insert_eq. lia.
        - rewrite step_unassigned in Hstep by done. injection Hstep as <-.
          split; [lia|]. split; [done|]. by intros. }
      destruct Hacc' as (Hlen & Hkeep & Hnew).
      destruct (IH acc') as [(e & -> & He)|(es & -> & Hes & Hkeep' & Hall)].
      * left. exists e. split; [done|].
        destruct He as [(-> & f' & d & ? & ? & ?)|(f' & ? & ->)].
        -- left. split; [done|]. exists f', d. split; [by right|done].
        -- right. exists f'. split; [by right|done].
      * right. exists es. split; [done|]. split.
        { rewrite Hes, Hlen. simpl. destruct (f_dim f); lia. }
        split; [by eauto|].
        intros f' d [->|Hin]%elem_of_cons Hf'; [|by eauto].
        destruct (Hnew d Hf') as [Hd Hcl]. split; [done|]. by apply Hkeep'.
    + rewrite Hstep, bind_raise. left. exists e. split; [done|].
      destruct (step_exceptions site acc f e Hstep) as [(-> & d & ? & ?)| ->].
      * left. split; [done|]. exists f, d. split; [left|done].
      * right. exists f. split; [left|done].
Qed.

Lemma compute_expected_shape_length site expected_shape :
  compute_expected_shape site = mret expected_shape →
  length expected_shape = deepest_dim (cond_indep_stack site).
Proof.
  unfold compute_expected_shape. intros Hrun.
  destruct (frame_loop_spec site (cond_indep_stack site) [])
    as [(e & He & _)|(es & Hes & Hlen & _)];
    [rewrite Hrun in He; discriminate|].
  rewrite Hrun in Hes. injection Hes as <-. by rewrite Hlen.
Qed.

(** X1: [check_site_shape] emits no warning, and an exception it raises is
    either the [AssertionError] of a frame whose [dim] is not negative, or one
    of its three [ValueError]s about this site; it raises no [IndexError] and
    no [KeyError]. *)
Theorem check_site_shape_exceptions (site : Site) (max_plate_nesting : nesting) :
  warnings_of (check_site_shape site max_plate_nesting) = []
  ∧ ∀ e, outcome (check_site_shape site max_plate_nesting) = inl e →
      (e = AssertionError
       ∧ ∃ f d, f ∈ cond_indep_stack site ∧ f_dim f = Some d ∧ 0 ≤ d)
      ∨ (∃ f, f ∈ cond_indep_stack site
              ∧ e = ValueError (DimCollision (site_name site) (f_name f)))
      ∨ (∃ at_least, e = ValueError (PlateStackOverflow (site_name site) at_least))
      ∨ (∃ expected actual,
           e = ValueError (InvalidLogProbShape (site_name site) expected actual)).
Proof.
  unfold check_site_shape, compute_expected_shape.
  destruct (frame_loop_spec site (cond_indep_stack site) [])
    as [(e & -> & He)|(es & -> & _)].
  - rewrite bind_raise. split; [done|]. intros e' [= <-].
    destruct He as [?|?]; [by left|by right; left].
  - rewrite bind_ret. destruct (len_gt _ _).
    + split; [done|]. intros e [= <-]. right. right. left. eauto.
    + rewrite compare_sizes_outcomes. destruct (existsb _ _).
      * split; [done|]. intros e [= <-]. right. right. right. eauto.
      * split; [done|]. intros e [=].
Qed.

Lemma check_site_shape_after_loop site max_plate_nesting expected_shape :
  compute_expected_shape site = mret expected_shape →
  check_site_shape site max_plate_nesting
  = if len_gt (length expected_shape) max_plate_nesting
    then raise (ValueError
                  (PlateStackOverflow (site_name site) (length expected_shape)))
    else if existsb (λ p : Z * Z, negb (p.2 =? -1) && negb (p.2 =? p.1))
              (zip_longest 1
                 (reverse (rightmost max_plate_nesting (log_prob_shape site)))
                 (reverse (fill_wildcards expected_shape)))
         then raise (ValueError
                       (InvalidLogProbShape (site_name site)
                          (fill_wildcards expected_shape)
                          (rightmost max_plate_nesting (log_prob_shape site))))
         else mret tt.
Proof.
  intros Hrun. unfold check_site_shape. rewrite Hrun, bind_ret.
  rewrite length_fill_wildcards. destruct (len_gt _ _); [done|].
  apply compare_sizes_outcomes.
Qed.

Lemma check_site_shape_loop_raises site max_plate_nesting e :
  compute_expected_shape site = raise e →
  check_site_shape site max_plate_nesting = raise e.
Proof. intros Hrun. unfold check_site_shape. by rewrite Hrun. Qed.

Lemma zip_longest_lookup {A} (fillvalue : A) (l1 l2 : list A) : ∀ i,
  (i < Nat.max (length l1) (length l2))%nat →
  zip_longest fillvalue l1 l2 !! i
  = Some (default fillvalue (l1 !! i), default fillvalue (l2 !! i)).
Proof.
  revert l2. induction l1 as [|a l1 IH]; intros l2 i Hi.
  - simpl in *. rewrite list_lookup_fmap.
    destruct (lookup_lt_is_Some_2 l2 i Hi) as [b ->]. done.
  - destruct l2 as [|b l2]; destruct i as [|i]; simpl in *; try done.
    + rewrite list_lookup_fmap.
      destruct (lookup_lt_is_Some_2 l1 i) as [a' ->]; [lia|]. simpl.
      by destruct i.
    + apply IH. lia.
Qed.

(** What a pass of [check_site_shape] establishes. *)
Lemma check_site_shape_returns site max_plate_nesting :
  outcome (check_site_shape site max_plate_nesting) = inr tt →
  ∃ expected_shape,
    compute_expected_shape site = mret expected_shape ∧
    len_gt (length expected_shape) max_plate_nesting = false ∧
    ∀ i, (i < Nat.max
                (length (rightmost max_plate_nesting (log_prob_shape site)))
                (length expected_shape))%nat →
      let actual_size :=
        default 1 (reverse (rightmost max_plate_nesting (log_prob_shape site)) !! i) in
      let expected_size :=
        default 1 (reverse (fill_wildcards expected_shape) !! i) in
      expected_size = -1 ∨ expected_size = actual_size.
Proof.
  destruct (compute_expected_shape_outcomes site) as [[es Hes]|(e & He & _)].
  - rewrite (check_site_shape_after_loop _ _ _ Hes). exists es. split; [done|].
    destruct (len_gt _ _); [done|]. split; [done|].
    destruct (existsb _ _) eqn:Hex; [done|]. intros i Hi.
    rewrite <- not_true_iff_false, existsb_exists in Hex.
    pose proof (zip_longest_lookup 1
                  (reverse (rightmost max_plate_nesting (log_prob_shape site)))
                  (reverse (fill_wildcards es)) i) as Hpair.
    rewrite !length_reverse, length_fill_wildcards in Hpair.
    specialize (Hpair Hi). apply list_elem_of_lookup_2, list_elem_of_In in Hpair.
    cbv zeta.
    destruct (Z.eqb_spec (default 1 (reverse (fill_wildcards es) !! i)) (-1));
      [by left|].
    destruct (Z.eqb_spec (default 1 (reverse (fill_wildcards es) !! i))
                (default 1 (reverse (rightmost max_plate_nesting
                                       (log_prob_shape site)) !! i)));
      [by right|].
    destruct Hex. eexists. split; [exact Hpair|]. simpl.
    apply andb_true_iff. split; apply negb_true_iff; by apply Z.eqb_neq.
  - by rewrite (check_site_shape_loop_raises _ _ _ He).
Qed.

(** X2: when the plate-stack-overflow error is raised, the value it suggests
    is the largest [-dim] of the stack; it is the least adequate bound: every
    smaller [max_plate_nesting] raises the same error, and no bound from it
    upwards (nor infinity) raises an overflow error. *)
Theorem check_site_shape_overflow_suggestion (site : Site)
    (max_plate_nesting : nesting) (name : string) (at_least : nat) :
  outcome (check_site_shape site max_plate_nesting)
    = inl (ValueError (PlateStackOverflow name at_least)) →
  at_least = deepest_dim (cond_indep_stack site)
  ∧ (∀ n, n < Z.of_nat at_least →
          check_site_shape site (Finite n)
          = raise (ValueError (PlateStackOverflow (site_name site) at_least)))
  ∧ (∀ bound name' at_least',
       bound = Infinity ∨ (∃ n, bound = Finite n ∧ Z.of_nat at_least ≤ n) →
       outcome (check_site_shape site bound)
       ≠ inl (ValueError (PlateStackOverflow name' at_least'))).
Proof.
  intros Hraise.
  destruct (compute_expected_shape_outcomes site) as [[es Hes]|(e & He & Hexn)].
  - rewrite (check_site_shape_after_loop _ _ _ Hes) in Hraise.
    assert (at_least = length es) as ->.
    { destruct (len_gt _ _); [by injection Hraise|].
      by destruct (existsb _ _). }
    split; [by apply compute_expected_shape_length|]. split.
    + intros n Hn. rewrite (check_site_shape_after_loop _ _ _ Hes). simpl.
      by rewrite (proj2 (Z.ltb_lt _ _) Hn).
    + intros bound name' k' Hbound.
      rewrite (check_site_shape_after_loop _ _ _ Hes).
      assert (len_gt (length es) bound = false) as ->.
      { destruct Hbound as [->|(n & -> & Hn)]; [done|]. simpl.
        by apply Z.ltb_ge. }
      clear Hraise. destruct (existsb _ _); simpl; intros [=].
  - rewrite (check_site_shape_loop_raises _ _ _ He) in Hraise.
    injection Hraise as ->. destruct Hexn as [?|[?|[f ?]]]; discriminate.
Qed.

Lemma check_site_shape_overflow_suggestion_witness :
  let site := mkSite "sample" "x" (mkFn "Normal" None None) false
                (mkInfer None None None)
                [mkFrame "a" (Some (-3)) 5 0 true; mkFrame "b" (Some (-1)) 3 0 true]
                [5; 1; 3] in
  3%nat = deepest_dim (cond_indep_stack site)
  ∧ (∀ n, n < Z.of_nat 3 →
          check_site_shape site (Finite n)
          = raise (ValueError (PlateStackOverflow (site_name site) 3)))
  ∧ (∀ bound name' at_least',
       bound = Infinity ∨ (∃ n, bound = Finite n ∧ Z.of_nat 3 ≤ n) →
       outcome (check_site_shape site bound)
       ≠ inl (ValueError (PlateStackOverflow name' at_least'))).
Proof.
  intros site.
  apply (check_site_shape_overflow_suggestion site (Finite 2) "x" 3).
  reflexivity.
Defined.

(** X3: when [check_site_shape] returns, every frame with an assigned [dim]
    has a negative [dim], and unless its [size] is -1 the actual shape (cut to
    its rightmost [max_plate_nesting] entries) has that size at index [dim];
    if the actual shape is too short to have that index, the size is 1. *)
Theorem check_site_shape_pass_sizes (site : Site) (max_plate_nesting : nesting)
    (f : Frame) (d : Z) :
  outcome (check_site_shape site max_plate_nesting) = inr tt →
  f ∈ cond_indep_stack site → f_dim f = Some d →
  let actual_shape := rightmost max_plate_nesting (log_prob_shape site) in
  d < 0
  ∧ (f_size f = -1
     ∨ py_getitem actual_shape d = Some (f_size f)
     ∨ (py_getitem actual_shape d = None ∧ f_size f = 1)).
Proof.
  intros Hpass Hin Hf actual_shape.
  destruct (check_site_shape_returns _ _ Hpass) as (es & Hes & _ & Hpairs).
  fold actual_shape in Hpairs.
  unfold compute_expected_shape in Hes.
  destruct (frame_loop_spec site (cond_indep_stack site) [])
    as [(e & He & _)|(es' & Hes' & _ & _ & Hall)];
    [rewrite Hes in He; discriminate|].
  rewrite Hes in Hes'. injection Hes' as <-.
  destruct (Hall f d Hin Hf) as (Hd & Hn & Hsize). split; [done|].
  set (n := Z.to_nat (- d)) in *.
  specialize (Hpairs (n - 1)%nat ltac:(lia)). cbv zeta in Hpairs.
  assert (Hexp : reverse (fill_wildcards es) !! (n - 1)%nat = Some (f_size f)).
  { rewrite reverse_lookup by (rewrite length_fill_wildcards; lia).
    rewrite length_fill_wildcards. unfold fill_wildcards.
    rewrite list_lookup_fmap.
    replace (length es - S (n - 1))%nat with (length es - n)%nat by lia.
    by rewrite Hsize. }
  rewrite Hexp in Hpairs. simpl in Hpairs.
  destruct Hpairs as [?|Hact]; [by left|]. right.
  unfold py_getitem.
  destruct (decide (n ≤ length actual_shape)%nat) as [Hle|Hgt].
  - left. rewrite py_index_negative by lia. simpl. fold n.
    rewrite reverse_lookup in Hact by lia.
    replace (length actual_shape - S (n - 1))%nat
      with (length actual_shape - n)%nat in Hact by lia.
    destruct (lookup_lt_is_Some_2 actual_shape (length actual_shape - n)%nat)
      as [a Ha]; [lia|].
    rewrite Ha in Hact |- *. simpl in Hact. by rewrite Hact.
  - right. rewrite lookup_ge_None_2 in Hact by (rewrite length_reverse; lia).
    split; [|done]. unfold py_index.
    destruct (Z.leb_spec 0 d); [lia|]. simpl.
    destruct (Z.ltb_spec d 0); [|lia].
    destruct (Z.leb_spec (- Z.of_nat (length actual_shape)) d); [lia|]. done.
Qed.

Lemma check_site_shape_pass_sizes_witness :
  let site := mkSite "sample" "x" (mkFn "Normal" None None) false
                (mkInfer None None None)
                [mkFrame "a" (Some (-2)) 5 0 true; mkFrame "b" (Some (-1)) 3 0 true]
                [7; 5; 3] in
  let actual_shape := rightmost (Finite 2) (log_prob_shape site) in
  -1 < 0
  ∧ (3 = -1
     ∨ py_getitem actual_shape (-1) = Some 3
     ∨ (py_getitem actual_shape (-1) = None ∧ 3 = 1)).
Proof.
  intros site.
  apply (check_site_shape_pass_sizes site (Finite 2)
           (mkFrame "b" (Some (-1)) 3 0 true) (-1)).
  - reflexivity.
  - right. left.
  - reflexivity.
Defined.

(** X4: when [check_site_shape] returns, every entry of the actual shape (cut
    to its rightmost [max_plate_nesting] entries) that lies to the left of the
    deepest plate dimension is 1: a batch dimension that no plate declares is
    accepted only with size 1. *)
Theorem check_site_shape_pass_unplated (site : Site) (max_plate_nesting : nesting)
    (i : nat) (size : Z) :
  outcome (check_site_shape site max_plate_nesting) = inr tt →
  let actual_shape := rightmost max_plate_nesting (log_prob_shape site) in
  actual_shape !! i = Some size →
  (i + deepest_dim (cond_indep_stack site) < length actual_shape)%nat →
  size = 1.
Proof.
  intros Hpass actual_shape Hi Hleft.
  destruct (check_site_shape_returns _ _ Hpass) as (es & Hes & _ & Hpairs).
  fold actual_shape in Hpairs.
  rewrite <- (compute_expected_shape_length _ _ Hes) in Hleft.
  specialize (Hpairs (length actual_shape - S i)%nat ltac:(lia)).
  cbv zeta in Hpairs.
  rewrite (reverse_lookup actual_shape) in Hpairs by lia.
  replace (length actual_shape - S (length actual_shape - S i))%nat with i
    in Hpairs by lia.
  rewrite Hi in Hpairs.
  rewrite lookup_ge_None_2 in Hpairs
    by (rewrite length_reverse, length_fill_wildcards; lia).
  simpl in Hpairs. destruct Hpairs as [?|?]; [done|by symmetry].
Qed.

Lemma check_site_shape_pass_unplated_witness :
  let site := mkSite "sample" "x" (mkFn "Normal" None None) false
                (mkInfer None None None)
                [mkFrame "b" (Some (-1)) 3 0 true] [1; 3] in
  (1 : Z) = 1.
Proof.
  intros site.
  apply (check_site_shape_pass_unplated site (Finite 2) 0 1).
  - reflexivity.
  - reflexivity.
  - simpl. lia.
Defined.

(** ** Trace lookups and loops *)

Lemma elem_of_names_where (keep : Site → bool) (trace : Trace) (name : string) :
  name ∈ names_where keep trace
  ↔ ∃ site, (name, site) ∈ trace ∧ keep site = true.
Proof.
  unfold names_where. rewrite elem_of_list_to_set, list_elem_of_fmap. split.
  - intros ([n site] & -> & [Hkeep Hin]%list_elem_of_filter). by exists site.
  - intros (site & Hin & Hkeep). exists (name, site). split; [done|].
    by apply list_elem_of_filter.
Qed.

Lemma nodes_get_elem_of (trace : Trace) (name : string) (site : Site) :
  nodes_get trace name = Some site → (name, site) ∈ trace.
Proof.
  induction trace as [|[n s] trace IH]; simpl; [done|].
  destruct (String.eqb_spec n name) as [->|Hne].
  - intros [= ->]. left.
  - intros H. right. by apply IH.
Qed.

Lemma nodes_get_is_Some (trace : Trace) (name : string) (site : Site) :
  (name, site) ∈ trace → is_Some (nodes_get trace name).
Proof.
  induction trace as [|[n s] trace IH]; simpl; [by intros ?%elem_of_nil|].
  destruct (String.eqb_spec n name) as [->|Hne]; [by eexists|].
  intros [[= -> ->]|Hin]%elem_of_cons; [done|by apply IH].
Qed.

Lemma nodes_getitem_raises trace name :
  nodes_get trace name = None → nodes_getitem trace name = raise (KeyError name).
Proof. intros H. unfold nodes_getitem. by rewrite H. Qed.

Lemma for_each_returns {A} (xs : list A) (body : A → M unit) :
  outcome (for_each xs body) = inr tt ↔ ∀ x, x ∈ xs → outcome (body x) = inr tt.
Proof.
  induction xs as [|x xs IH]; simpl.
  - split; [by intros _ ? ?%elem_of_nil|done].
  - rewrite outcome_bind. destruct (outcome (body x)) as [e|[]] eqn:Hx.
    + split; [done|]. intros H. specialize (H x ltac:(left)). congruence.
    + rewrite IH. split.
      * intros H y [->|Hy]%elem_of_cons; [done|by apply H].
      * intros H y Hy. apply H. by right.
Qed.

Lemma for_each_silent {A} (xs : list A) (body : A → M unit) :
  (∀ x, warnings_of (body x) = []) → warnings_of (for_each xs body) = [].
Proof.
  intros Hbody. induction xs as [|x xs IH]; simpl; [done|].
  rewrite warnings_bind, Hbody. simpl. destruct (outcome (body x)) as [e|[]]; done.
Qed.

(** The body of the loop of [check_traces_match]. *)
Lemma check_traces_match_body trace1 trace2 name :
  let body :=
    site1 ← nodes_getitem trace1 name;
    site2 ← nodes_getitem trace2 name;
    match fn_shape (site_fn site1), fn_shape (site_fn site2) with
    | Some shape1, Some shape2 =>
        if bool_decide (shape1 ≠ shape2)
        then raise (ValueError (SiteDimsDisagree name shape1 shape2))
        else mret tt
    | _, _ => mret tt
    end in
  warnings_of body = []
  ∧ (outcome body = inr tt
     ↔ ∃ site1 site2,
         nodes_get trace1 name = Some site1 ∧ nodes_get trace2 name = Some site2 ∧
         ∀ shape1 shape2,
           fn_shape (site_fn site1) = Some shape1 →
           fn_shape (site_fn site2) = Some shape2 → shape1 = shape2).
Proof.
  intros body. subst body. unfold nodes_getitem.
  destruct (nodes_get trace1 name) as [site1|]; [rewrite bind_ret|].
  2: { split; [done|]. split; [done|]. by intros (? & ? & ? & _). }
  destruct (nodes_get trace2 name) as [site2|]; [rewrite bind_ret|].
  2: { split; [done|]. split; [done|]. by intros (? & ? & _ & ? & _). }
  assert (Hiff :
    (∃ s1 s2, Some site1 = Some s1 ∧ Some site2 = Some s2 ∧
       ∀ shape1 shape2,
         fn_shape (site_fn s1) = Some shape1 →
         fn_shape (site_fn s2) = Some shape2 → shape1 = shape2)
    ↔ (∀ shape1 shape2,
         fn_shape (site_fn site1) = Some shape1 →
         fn_shape (site_fn site2) = Some shape2 → shape1 = shape2)).
  { split; [by intros (? & ? & [= <-] & [= <-] & ?)|]. intros H.
    by exists site1, site2. }
  rewrite Hiff. clear Hiff.
  destruct (fn_shape (site_fn site1)) as [shape1|].
  2: { split; [done|]. split; [intros _ ? ? ? ?; congruence|done]. }
  destruct (fn_shape (site_fn site2)) as [shape2|].
  2: { split; [done|]. split; [intros _ ? ? ? ?; congruence|done]. }
  case_bool_decide as Hne; (split; [done|]); split; try done.
  - intros Heq. destruct Hne. by apply (Heq shape1 shape2).
  - intros _ ? ? [= <-] [= <-].
    destruct (decide (shape1 = shape2)) as [|Hne']; [done|by destruct Hne].
Qed.

Lemma check_traces_match_warns (set_iter : gset string → list string)
    (trace1 trace2 : Trace) :
  warnings_of (check_traces_match set_iter trace1 trace2)
  = if decide (names_where is_sample trace1 = names_where is_sample trace2)
    then []
    else [ModelVarsChanged (names_where is_sample trace1)
            (names_where is_sample trace2)].
Proof.
  unfold check_traces_match. cbv zeta. rewrite warnings_bind, outcome_warn_if.
  rewrite for_each_silent by (intros name; apply check_traces_match_body).
  rewrite app_nil_r. unfold warn_if.
  destruct (decide (_ = _)) as [Heq|Hne].
  - by rewrite bool_decide_eq_false_2 by (by intros ?).
  - by rewrite bool_decide_eq_true_2.
Qed.

(** X5: for any order of iteration, [check_traces_match] emits the warning
    about changed variables exactly when the two sets of sample-site names
    differ, and nothing else, whether or not it then raises. *)
Theorem check_traces_match_warnings (set_iter : gset string → list string)
    (trace1 trace2 : Trace) :
  warnings_of (check_traces_match set_iter trace1 trace2)
  = if decide (names_where is_sample trace1 = names_where is_sample trace2)
    then []
    else [ModelVarsChanged (names_where is_sample trace1)
            (names_where is_sample trace2)].
Proof. apply check_traces_match_warns. Qed.

Section trace_matching.
Variable set_iter : gset string → list string.
Hypothesis set_iter_perm : ∀ X, set_iter X ≡ₚ elements X.

(** X6: [check_traces_match] returns exactly when every sample-site name of
    the first trace is a node of the second trace and the two sites do not
    both expose shapes that differ; in particular a sample site of the first
    trace that is missing from the second makes the call raise. *)
Theorem check_traces_match_returns (trace1 trace2 : Trace) :
  outcome (check_traces_match set_iter trace1 trace2) = inr tt
  ↔ ∀ name, name ∈ names_where is_sample trace1 →
      ∃ site1 site2,
        nodes_get trace1 name = Some site1 ∧ nodes_get trace2 name = Some site2 ∧
        ∀ shape1 shape2,
          fn_shape (site_fn site1) = Some shape1 →
          fn_shape (site_fn site2) = Some shape2 → shape1 = shape2.
Proof.
  unfold check_traces_match. cbv zeta. rewrite outcome_bind, outcome_warn_if.
  rewrite for_each_returns. split.
  - intros H name Hname. apply check_traces_match_body, H.
    by apply (elem_of_set_iter set_iter set_iter_perm).
  - intros H name Hname. apply check_traces_match_body, H.
    by apply (elem_of_set_iter set_iter set_iter_perm) in Hname.
Qed.

(** X7: a trace matches itself: [check_traces_match(trace, trace)] emits no
    warning and returns. *)
Theorem check_traces_match_same (trace : Trace) :
  check_traces_match set_iter trace trace = mret tt.
Proof.
  assert (Hout : outcome (check_traces_match set_iter trace trace) = inr tt).
  { unfold check_traces_match. cbv zeta. rewrite outcome_bind, outcome_warn_if.
    apply for_each_returns. intros name Hname.
    apply (elem_of_set_iter set_iter set_iter_perm) in Hname.
    apply elem_of_names_where in Hname as (site & Hin & _).
    destruct (nodes_get_is_Some _ _ _ Hin) as [site' Hget].
    apply check_traces_match_body. exists site', site'.
    repeat split; try done. intros ? ? ? ?. congruence. }
  pose proof (check_traces_match_warns set_iter trace trace) as Hws.
  rewrite decide_True in Hws by done.
  destruct (check_traces_match set_iter trace trace) as [ws [e|[]]];
    unfold outcome, warnings_of in *; simpl in *; [done|by subst].
Qed.

(** X8: [check_model_guide_match] never raises [KeyError]: an exception it
    raises is the event-dim or the shape mismatch error of a name that is in
    both [model_vars] and [guide_vars]. *)
Theorem check_model_guide_match_exceptions (model_trace guide_trace : Trace)
    (max_plate_nesting : nesting) (e : exn) :
  outcome (check_model_guide_match set_iter model_trace guide_trace
             max_plate_nesting) = inl e ↔
  ∃ name, name ∈ model_vars_of model_trace ∩ guide_vars_of guide_trace ∧
    outcome (check_matched_site model_trace guide_trace max_plate_nesting name)
      = inl e ∧
    ((∃ d1 d2, e = ValueError (EventDimsDisagree name d1 d2))
     ∨ (∃ s1 s2, e = ValueError (ShapesDisagree name s1 s2))) ∧
    ∃ before after,
      set_iter (model_vars_of model_trace ∩ guide_vars_of guide_trace)
        = before ++ name :: after ∧
      ∀ n, n ∈ before →
        outcome (check_matched_site model_trace guide_trace max_plate_nesting n)
          = inr tt.
Proof.
  rewrite check_model_guide_match_outcome.
  set (names := set_iter (model_vars_of model_trace ∩ guide_vars_of guide_trace)).
  assert (Hnames : ∀ n, n ∈ names →
            n ∈ model_vars_of model_trace ∩ guide_vars_of guide_trace).
  { intros n. apply (elem_of_set_iter set_iter set_iter_perm). }
  assert (Hkind : ∀ n e', n ∈ names →
            outcome (check_matched_site model_trace guide_trace
                       max_plate_nesting n) = inl e' →
            (∃ d1 d2, e' = ValueError (EventDimsDisagree n d1 d2))
            ∨ (∃ s1 s2, e' = ValueError (ShapesDisagree n s1 s2))).
  { intros n e' Hn Hraise.
    apply Hnames, elem_of_intersection in Hn as [Hm Hg].
    apply elem_of_names_where in Hm as (ms & Hm & _).
    apply elem_of_names_where in Hg as (gs & Hg & _).
    destruct (nodes_get_is_Some _ _ _ Hm) as [ms' Hms].
    destruct (nodes_get_is_Some _ _ _ Hg) as [gs' Hgs].
    pose proof (check_matched_site_raises _ _ _ _ _ Hraise) as [->|H]; [|done].
    unfold check_matched_site in Hraise.
    rewrite (nodes_getitem_Some _ _ _ Hms), bind_ret in Hraise.
    rewrite (nodes_getitem_Some _ _ _ Hgs), bind_ret in Hraise.
    rewrite outcome_bind in Hraise.
    destruct (check_event_dims_outcomes n ms' gs')
      as [Hev|(d1 & d2 & _ & _ & _ & Hev)]; rewrite Hev in Hraise; [|done].
    simpl in Hraise.
    destruct (check_shapes_outcomes n max_plate_nesting ms' gs')
      as [Hsh|(s1 & s2 & Hsh)]; rewrite Hsh in Hraise; done. }
  clearbody names. induction names as [|n names IH]; simpl.
  - split; [done|]. intros (? & _ & _ & _ & before & after & Heq & _).
    by destruct before.
  - rewrite outcome_bind.
    destruct (outcome (check_matched_site model_trace guide_trace
                         max_plate_nesting n)) as [e'|[]] eqn:Hn.
    + split.
      * intros [= ->]. exists n. split; [apply Hnames; left|]. split; [done|].
        split; [apply Hkind; [left|done]|]. exists [], names. split; [done|].
        by intros ? ?%elem_of_nil.
      * intros (name & _ & Hraise & _ & before & after & Heq & Hbefore).
        destruct before as [|b before]; simpl in Heq; injection Heq as <- _.
        -- congruence.
        -- specialize (Hbefore n ltac:(left)). congruence.
    + rewrite IH; [|intros; apply Hnames; by right
                   |intros ? ? ?; apply Hkind; by right].
      split.
      * intros (name & ? & ? & ? & before & after & -> & Hbefore).
        exists name. repeat split; try done. exists (n :: before), after.
        split; [done|]. intros ? [->|?]%elem_of_cons; [done|by apply Hbefore].
      * intros (name & ? & Hraise & ? & before & after & Heq & Hbefore).
        destruct before as [|b before]; simpl in Heq; injection Heq as <- ->.
        -- congruence.
        -- exists name. repeat split; try done. exists before, after.
           split; [done|]. intros ? ?. apply Hbefore. by right.
Qed.

End trace_matching.

Lemma check_traces_match_returns_witness :
  let site name :=
    (name, mkSite "sample" name (mkFn "Normal" None (Some [3])) false
             (mkInfer None None None) [] []) in
  outcome (check_traces_match elements [site "a"] [site "a"; site "c"]) = inr tt
  ↔ ∀ name, name ∈ names_where is_sample [site "a"] →
      ∃ site1 site2,
        nodes_get [site "a"] name = Some site1 ∧
        nodes_get [site "a"; site "c"] name = Some site2 ∧
        ∀ shape1 shape2,
          fn_shape (site_fn site1) = Some shape1 →
          fn_shape (site_fn site2) = Some shape2 → shape1 = shape2.
Proof.
  intros site.
  exact (check_traces_match_returns elements (λ X, reflexivity _)
           [site "a"] [site "a"; site "c"]).
Defined.

Lemma check_traces_match_same_witness :
  check_traces_match elements [("e", site_e); ("f", site_f)]
    [("e", site_e); ("f", site_f)] = mret tt.
Proof.
  exact (check_traces_match_same elements (λ X, reflexivity _)
           [("e", site_e); ("f", site_f)]).
Defined.

Lemma check_model_guide_match_exceptions_witness :
  let site dim :=
    mkSite "sample" "z" (mkFn "Normal" (Some dim) None) false
      (mkInfer None None None) [] [] in
  let e := ValueError (EventDimsDisagree "z" 1 0) in
  outcome (check_model_guide_match elements [("z", site 1)] [("z", site 0)]
             Infinity) = inl e ↔
  ∃ name, name ∈ model_vars_of [("z", site 1)] ∩ guide_vars_of [("z", site 0)] ∧
    outcome (check_matched_site [("z", site 1)] [("z", site 0)] Infinity name)
      = inl e ∧
    ((∃ d1 d2, e = ValueError (EventDimsDisagree name d1 d2))
     ∨ (∃ s1 s2, e = ValueError (ShapesDisagree name s1 s2))) ∧
    ∃ before after,
      elements (model_vars_of [("z", site 1)] ∩ guide_vars_of [("z", site 0)])
        = before ++ name :: after ∧
      ∀ n, n ∈ before →
        outcome (check_matched_site [("z", site 1)] [("z", site 0)] Infinity n)
          = inr tt.
Proof.
  intros site e.
  exact (check_model_guide_match_exceptions elements (λ X, reflexivity _)
           [("z", site 1)] [("z", site 0)] Infinity e).
Defined.

(** ** The shape comparison of [check_model_guide_match] *)

Lemma rightmost_reverse (bound : nesting) (shape : list Z) :
  reverse (rightmost bound shape)
  = match bound with
    | Finite n => take (Z.to_nat n) (reverse shape)
    | Infinity => reverse shape
    end.
Proof.
  destruct bound as [n|]; [|done]. simpl.
  destruct (Z.ltb_spec n (Z.of_nat (length shape))).
  - rewrite take_reverse. f_equal.
    destruct (Z.lt_ge_cases n 0).
    + rewrite !drop_ge by lia. done.
    + f_equal. lia.
  - by rewrite take_ge by (rewrite length_reverse; lia).
Qed.

Lemma zip_longest_take {A} (fillvalue : A) (k : nat) : ∀ l1 l2 : list A,
  zip_longest fillvalue (take k l1) (take k l2)
  = take k (zip_longest fillvalue l1 l2).
Proof.
  induction k as [|k IH]; intros l1 l2.
  - by rewrite !take_0.
  - destruct l1 as [|a l1], l2 as [|b l2]; simpl; try done.
    + by rewrite fmap_take.
    + by rewrite fmap_take.
    + by rewrite IH.
Qed.

Lemma aligned_same (shape : list Z) : aligned shape shape = true.
Proof.
  unfold aligned. apply negb_true_iff.
  induction (reverse shape) as [|a l IH]; simpl; [done|].
  by rewrite bool_decide_eq_false_2 by (by intros ?).
Qed.

Lemma all_ones (l : list Z) : Forall (λ x, x = 1) l ↔ l = replicate (length l) 1.
Proof.
  induction l as [|a l IH]; simpl; [by split; [|constructor]|].
  rewrite Forall_cons, IH. split.
  - by intros [-> <-].
  - intros [= -> Hl]. by rewrite <- Hl.
Qed.

(** The loop test on reversed shapes: one is the other followed by 1s. *)
Lemma aligned_reversed (r1 : list Z) : ∀ r2 : list Z,
  existsb (λ p : Z * Z, bool_decide (p.1 ≠ p.2)) (zip_longest 1 r1 r2) = false
  ↔ (∃ k, r1 = r2 ++ replicate k 1) ∨ (∃ k, r2 = r1 ++ replicate k 1).
Proof.
  assert (Hones : ∀ (l : list Z) (f : Z → Z * Z),
            (∀ x, bool_decide ((f x).1 ≠ (f x).2) = false ↔ x = 1) →
            existsb (λ p : Z * Z, bool_decide (p.1 ≠ p.2)) (f <$> l) = false
            ↔ ∃ k, l = replicate k 1).
  { intros l f Hf. induction l as [|x l IH]; simpl.
    - split; [by exists O|done].
    - rewrite orb_false_iff, Hf, IH. split.
      + intros [-> [k ->]]. by exists (S k).
      + intros [[|k] [= -> ->]]. split; [done|by exists k]. }
  induction r1 as [|a r1 IH]; intros r2.
  - simpl. rewrite Hones.
    + split; [intros [k ->]; right; by exists k|].
      intros [[k Hk]|[k ->]]; [|by exists k].
      symmetry in Hk. apply app_eq_nil in Hk as [-> _]. by exists O.
    + intros x. simpl. rewrite bool_decide_eq_false. split.
      * intros H. symmetry. by apply dec_stable.
      * intros -> H. by apply H.
  - destruct r2 as [|b r2].
    + rewrite zip_longest_nil_r, (Hones (a :: r1)).
      * split; [intros [k ->]; left; by exists k|].
        intros [[k ->]|[k Hk]]; [by exists k|done].
      * intros x. simpl. rewrite bool_decide_eq_false. split.
        -- intros H. by apply dec_stable.
        -- intros -> H. by apply H.
    + simpl. rewrite orb_false_iff, IH, bool_decide_eq_false. split.
      * intros [Hab [[k ->]|[k ->]]]; apply dec_stable in Hab as ->;
          [left|right]; by exists k.
      * intros [[k [= -> ->]]|[k [= -> ->]]];
          (split; [intros H; by apply H|]); [left|right]; by exists k.
Qed.

Lemma aligned_left_padded (shape1 shape2 : list Z) :
  aligned shape1 shape2 = true
  ↔ left_padded shape1 shape2 ∨ left_padded shape2 shape1.
Proof.
  unfold aligned, left_padded. rewrite negb_true_iff, aligned_reversed.
  assert (Hrev : ∀ l1 l2 k,
            reverse l1 = reverse l2 ++ replicate k 1 ↔ l1 = replicate k 1 ++ l2).
  { intros l1 l2 k. split.
    - intros H. apply (inj reverse). by rewrite reverse_app, reverse_replicate.
    - intros ->. by rewrite reverse_app, reverse_replicate. }
  by setoid_rewrite Hrev.
Qed.

(** The shape comparison, once both shapes are known. *)
Lemma check_shapes_aligned name max_plate_nesting model_site guide_site
    model_shape guide_shape :
  fn_shape (site_fn model_site) = Some model_shape →
  fn_shape (site_fn guide_site) = Some guide_shape →
  check_shapes name max_plate_nesting model_site guide_site
  = if aligned (rightmost max_plate_nesting model_shape)
         (rightmost max_plate_nesting guide_shape)
    then mret tt
    else raise (ValueError
                  (ShapesDisagree name (rightmost max_plate_nesting model_shape)
                     (rightmost max_plate_nesting guide_shape))).
Proof.
  intros Hm Hg. unfold check_shapes. rewrite Hm, Hg.
  case_bool_decide as Heq; [subst; by rewrite aligned_same|].
  case_bool_decide as Heq'; [rewrite Heq'; by rewrite aligned_same|].
  rewrite (for_each_ext _ _
             (λ p, if bool_decide (p.1 ≠ p.2)
                   then raise (ValueError
                                 (ShapesDisagree name
                                    (rightmost max_plate_nesting model_shape)
                                    (rightmost max_plate_nesting guide_shape)))
                   else mret tt)) by (by intros [a b]).
  rewrite for_each_guard. unfold aligned. by destruct (existsb _ _).
Qed.

Lemma check_shapes_missing name max_plate_nesting model_site guide_site :
  fn_shape (site_fn model_site) = None ∨ fn_shape (site_fn guide_site) = None →
  check_shapes name max_plate_nesting model_site guide_site = mret tt.
Proof.
  unfold check_shapes. intros [-> | ->]; [done|].
  by destruct (fn_shape (site_fn model_site)).
Qed.

(** X9: when both distributions expose a shape, the shape comparison passes
    exactly when, after each shape is cut to its rightmost
    [max_plate_nesting] entries, one of the two is the other with 1s added on
    the left; otherwise it raises the shape-mismatch error, which shows the
    two cut shapes. *)
Theorem check_shapes_left_padded (name : string) (max_plate_nesting : nesting)
    (model_site guide_site : Site) (model_shape guide_shape : list Z) :
  fn_shape (site_fn model_site) = Some model_shape →
  fn_shape (site_fn guide_site) = Some guide_shape →
  let model_cut := rightmost max_plate_nesting model_shape in
  let guide_cut := rightmost max_plate_nesting guide_shape in
  (check_shapes name max_plate_nesting model_site guide_site = mret tt
   ↔ left_padded model_cut guide_cut ∨ left_padded guide_cut model_cut)
  ∧ (¬ (left_padded model_cut guide_cut ∨ left_padded guide_cut model_cut) →
     check_shapes name max_plate_nesting model_site guide_site
     = raise (ValueError (ShapesDisagree name model_cut guide_cut))).
Proof.
  intros Hm Hg model_cut guide_cut.
  rewrite (check_shapes_aligned _ _ _ _ _ _ Hm Hg). fold model_cut guide_cut.
  rewrite <- aligned_left_padded.
  destruct (aligned model_cut guide_cut); split; done.
Qed.

Lemma check_shapes_left_padded_witness :
  let site shape :=
    mkSite "sample" "y" (mkFn "Normal" (Some 0) (Some shape)) false
      (mkInfer None None None) [] [] in
  let model_cut := rightmost Infinity [1; 1; 3] in
  let guide_cut := rightmost Infinity [3] in
  (check_shapes "y" Infinity (site [1; 1; 3]) (site [3]) = mret tt
   ↔ left_padded model_cut guide_cut ∨ left_padded guide_cut model_cut)
  ∧ (¬ (left_padded model_cut guide_cut ∨ left_padded guide_cut model_cut) →
     check_shapes "y" Infinity (site [1; 1; 3]) (site [3])
     = raise (ValueError (ShapesDisagree "y" model_cut guide_cut))).
Proof.
  intros site.
  apply (check_shapes_left_padded "y" Infinity (site [1; 1; 3]) (site [3])
           [1; 1; 3] [3]); reflexivity.
Defined.

(** X10: the shape comparison is symmetric: it passes for a model site and a
    guide site exactly when it passes with the two exchanged. *)
Theorem check_shapes_symmetric (name : string) (max_plate_nesting : nesting)
    (model_site guide_site : Site) :
  check_shapes name max_plate_nesting model_site guide_site = mret tt
  ↔ check_shapes name max_plate_nesting guide_site model_site = mret tt.
Proof.
  destruct (fn_shape (site_fn model_site)) as [ms|] eqn:Hm;
    [|by rewrite !check_shapes_missing by auto].
  destruct (fn_shape (site_fn guide_site)) as [gs|] eqn:Hg;
    [|by rewrite !check_shapes_missing by auto].
  rewrite (check_shapes_aligned _ _ _ _ _ _ Hm Hg),
    (check_shapes_aligned _ _ _ _ _ _ Hg Hm).
  assert (Hsym : aligned (rightmost max_plate_nesting ms)
                   (rightmost max_plate_nesting gs)
                 = aligned (rightmost max_plate_nesting gs)
                     (rightmost max_plate_nesting ms)).
  { apply eq_true_iff_eq. rewrite !aligned_left_padded. tauto. }
  rewrite Hsym. clear Hsym. destruct (aligned _ _); split; try done; discriminate.
Qed.

(** X11: lowering [max_plate_nesting] never turns a passing shape comparison
    into a failing one. *)
Theorem check_shapes_monotone (name : string) (bound bound' : nesting)
    (model_site guide_site : Site) :
  nesting_le bound' bound →
  check_shapes name bound model_site guide_site = mret tt →
  check_shapes name bound' model_site guide_site = mret tt.
Proof.
  intros Hle.
  destruct (fn_shape (site_fn model_site)) as [ms|] eqn:Hm;
    [|by rewrite !check_shapes_missing by auto].
  destruct (fn_shape (site_fn guide_site)) as [gs|] eqn:Hg;
    [|by rewrite !check_shapes_missing by auto].
  rewrite !(check_shapes_aligned _ _ _ _ _ _ Hm Hg).
  assert (Hk : ∃ k, reverse (rightmost bound' ms)
                    = take k (reverse (rightmost bound ms))
                  ∧ reverse (rightmost bound' gs)
                    = take k (reverse (rightmost bound gs))).
  { rewrite !rightmost_reverse.
    destruct bound' as [n'|], bound as [n|]; simpl in Hle; try done.
    - exists (Z.to_nat n'). rewrite !take_take.
      by replace (Z.to_nat n' `min` Z.to_nat n)%nat with (Z.to_nat n') by lia.
    - by exists (Z.to_nat n').
    - exists (Nat.max (length (reverse ms)) (length (reverse gs))).
      by rewrite !take_ge by lia. }
  destruct Hk as (k & Hms & Hgs).
  destruct (aligned (rightmost bound ms) (rightmost bound gs)) eqn:Hal; [|done].
  intros _. unfold aligned in *. rewrite Hms, Hgs, zip_longest_take.
  apply negb_true_iff in Hal. rewrite <- not_true_iff_false in Hal.
  destruct (existsb _ (take k _)) eqn:Hex; [|done].
  destruct Hal. apply existsb_exists in Hex as (p & Hin & Hp).
  apply existsb_exists. exists p. split; [|done].
  apply list_elem_of_In. apply list_elem_of_In in Hin.
  by apply (subseteq_take k).
Qed.

Lemma check_shapes_monotone_witness :
  let site shape :=
    mkSite "sample" "y" (mkFn "Normal" (Some 0) (Some shape)) false
      (mkInfer None None None) [] [] in
  check_shapes "y" (Finite 1) (site [1; 4; 3]) (site [4; 3]) = mret tt.
Proof.
  intros site.
  apply (check_shapes_monotone "y" Infinity (Finite 1)
           (site [1; 4; 3]) (site [4; 3])).
  - exact I.
  - reflexivity.
Defined.

(** ** The warnings of [check_model_guide_match] *)

Lemma check_matched_site_silent model_trace guide_trace max_plate_nesting name :
  warnings_of (check_matched_site model_trace guide_trace max_plate_nesting name) = [].
Proof.
  unfold check_matched_site, nodes_getitem.
  destruct (nodes_get model_trace name) as [model_site|]; [rewrite bind_ret|done].
  destruct (nodes_get guide_trace name) as [guide_site|]; [rewrite bind_ret|done].
  destruct (check_event_dims_outcomes name model_site guide_site)
    as [->|(d1 & d2 & _ & _ & _ & ->)]; [rewrite bind_ret|done].
  by destruct (check_shapes_outcomes name max_plate_nesting model_site guide_site)
    as [->|(s1 & s2 & ->)].
Qed.

Lemma elem_of_warn_if (c : bool) (w w' : warning) :
  w' ∈ warnings_of (warn_if c w) ↔ c = true ∧ w' = w.
Proof.
  destruct c; simpl.
  - rewrite list_elem_of_singleton. split; [done|by intros [_ ->]].
  - split; [by intros ?%elem_of_nil|by intros [? _]].
Qed.

Lemma not_subseteq_difference (A B C : gset string) :
  ¬ A ⊆ B ∪ C ↔ ∃ name, name ∈ A ∖ B ∖ C.
Proof.
  split.
  - intros Hnot. apply set_choose_L. intros Hempty. apply Hnot.
    intros x Hx. destruct (decide (x ∈ B ∪ C)) as [|Hout]; [done|].
    assert (x ∈ A ∖ B ∖ C) as Hin.
    { rewrite !elem_of_difference. rewrite elem_of_union in Hout. tauto. }
    rewrite Hempty in Hin. by apply not_elem_of_empty in Hin.
  - intros [x Hx] Hsub. rewrite !elem_of_difference in Hx.
    destruct Hx as [[HA HB] HC]. apply Hsub, elem_of_union in HA. tauto.
Qed.

(** The warnings of a call, in order: the three about the sets of variables,
    and after a loop that did not raise the one about plates. *)
Lemma check_model_guide_match_warnings set_iter model_trace guide_trace
    max_plate_nesting :
  let guide_vars := guide_vars_of guide_trace in
  let aux_vars := aux_vars_of guide_trace in
  let model_vars := model_vars_of model_trace in
  let enum_vars := enum_vars_of model_trace guide_vars in
  let model_plates :=
    names_where (λ site, is_sample site && negb (is_observed site) && is_subsample site)
      model_trace in
  let guide_plates :=
    names_where (λ site, is_sample site && is_subsample site) guide_trace in
  warnings_of (check_model_guide_match set_iter model_trace guide_trace
                 max_plate_nesting)
  = warnings_of (warn_if (bool_decide (aux_vars ∩ model_vars ≠ ∅))
                   (AuxiliaryVarsInModel (aux_vars ∩ model_vars)))
    ++ warnings_of (warn_if (negb (bool_decide (guide_vars ⊆ model_vars ∪ aux_vars)))
                      (NonAuxiliaryVarsInGuide (guide_vars ∖ aux_vars ∖ model_vars)))
    ++ warnings_of (warn_if (negb (bool_decide (model_vars ⊆ guide_vars ∪ enum_vars)))
                      (VarsInModelNotGuide (model_vars ∖ guide_vars ∖ enum_vars)))
    ++ match outcome (check_model_guide_match set_iter model_trace guide_trace
                        max_plate_nesting) with
       | inl _ => []
       | inr _ =>
           warnings_of (warn_if (negb (bool_decide (guide_plates ⊆ model_plates)))
                          (PlatesInGuideNotModel (guide_plates ∖ model_plates)))
       end.
Proof.
  intros. rewrite check_model_guide_match_outcome.
  unfold check_model_guide_match. cbv zeta.
  repeat (rewrite warnings_bind, outcome_warn_if; cbn beta iota).
  rewrite warnings_bind.
  rewrite for_each_silent by apply check_matched_site_silent.
  reflexivity.
Qed.

(** X12: the warning that variables of the model are missing from the guide
    is emitted, whether or not the call then raises, exactly when some
    unobserved model variable is neither a guide variable nor enumerated by
    the model; the set it lists is the set of these variables, so it is never
    empty. *)
Theorem check_model_guide_match_model_only (set_iter : gset string → list string)
    (model_trace guide_trace : Trace) (max_plate_nesting : nesting)
    (vars : gset string) :
  VarsInModelNotGuide vars
    ∈ warnings_of (check_model_guide_match set_iter model_trace guide_trace
                     max_plate_nesting)
  ↔ vars = model_vars_of model_trace ∖ guide_vars_of guide_trace
             ∖ enum_vars_of model_trace (guide_vars_of guide_trace)
    ∧ ∃ name, name ∈ model_vars_of model_trace
              ∧ (name ∉ guide_vars_of guide_trace)
              ∧ (name ∉ enum_vars_of model_trace (guide_vars_of guide_trace)).
Proof.
  rewrite check_model_guide_match_warnings. cbv zeta.
  rewrite !elem_of_app, !elem_of_warn_if.
  assert (Hlast : ¬ VarsInModelNotGuide vars
                    ∈ match outcome (check_model_guide_match set_iter model_trace
                                       guide_trace max_plate_nesting) with
                      | inl _ => []
                      | inr _ =>
                          warnings_of
                            (warn_if
                               (negb (bool_decide
                                  (names_where (λ site, is_sample site
                                                        && is_subsample site)
                                     guide_trace
                                   ⊆ names_where (λ site, is_sample site
                                                    && negb (is_observed site)
                                                    && is_subsample site)
                                       model_trace)))
                               (PlatesInGuideNotModel
                                  (names_where (λ site, is_sample site
                                                        && is_subsample site)
                                     guide_trace
                                   ∖ names_where (λ site, is_sample site
                                                    && negb (is_observed site)
                                                    && is_subsample site)
                                       model_trace)))
                      end).
  { destruct (outcome _); [by intros ?%elem_of_nil|].
    by intros [_ [=]]%elem_of_warn_if. }
  split.
  - intros [[_ [=]]|[[_ [=]]|[[Hc [= ->]]|?]]]; [|done].
    apply negb_true_iff, bool_decide_eq_false, not_subseteq_difference in Hc
      as [name Hname].
    split; [done|]. exists name. rewrite !elem_of_difference in Hname. tauto.
  - intros [-> (name & ? & ? & ?)]. right. right. left. split; [|done].
    apply negb_true_iff, bool_decide_eq_false, not_subseteq_difference.
    exists name. rewrite !elem_of_difference. tauto.
Qed.

(** X13: the warning about plates that the guide has and the model lacks is
    emitted only by a call that returns: when the shape loop raises, the plate
    check is not reached.  It lists the subsample sites of the guide that are
    not unobserved subsample sites of the model, and is never empty. *)
Theorem check_model_guide_match_plates (set_iter : gset string → list string)
    (model_trace guide_trace : Trace) (max_plate_nesting : nesting)
    (plates : gset string) :
  let model_plates :=
    names_where (λ site, is_sample site && negb (is_observed site) && is_subsample site)
      model_trace in
  let guide_plates :=
    names_where (λ site, is_sample site && is_subsample site) guide_trace in
  PlatesInGuideNotModel plates
    ∈ warnings_of (check_model_guide_match set_iter model_trace guide_trace
                     max_plate_nesting)
  ↔ outcome (check_model_guide_match set_iter model_trace guide_trace
               max_plate_nesting) = inr tt
    ∧ plates = guide_plates ∖ model_plates
    ∧ ∃ name, name ∈ guide_plates ∧ name ∉ model_plates.
Proof.
  intros model_plates guide_plates.
  rewrite check_model_guide_match_warnings. cbv zeta.
  fold model_plates guide_plates.
  rewrite !elem_of_app, !elem_of_warn_if.
  assert (Hsub : ¬ guide_plates ⊆ model_plates
                 ↔ ∃ name, name ∈ guide_plates ∧ name ∉ model_plates).
  { split.
    - intros Hnot. destruct (not_subseteq_difference guide_plates model_plates ∅)
        as [Hex _].
      destruct Hex as [name Hname].
      { intros H. apply Hnot. intros x Hx.
        apply H, elem_of_union in Hx as [?|?%not_elem_of_empty]; done. }
      exists name. rewrite !elem_of_difference in Hname. tauto.
    - intros (name & Hin & Hout) Hsub. by apply Hsub in Hin. }
  destruct (outcome (check_model_guide_match set_iter model_trace guide_trace
                       max_plate_nesting)) as [e|[]].
  - split; [|by intros [[=] _]].
    intros [[_ [=]]|[[_ [=]]|[[_ [=]]|?%elem_of_nil]]]; done.
  - rewrite elem_of_warn_if. split.
    + intros [[_ [=]]|[[_ [=]]|[[_ [=]]|[Hc [= ->]]]]].
      apply negb_true_iff, bool_decide_eq_false, Hsub in Hc. done.
    + intros (_ & -> & ?). right. right. right. split; [|done].
      by apply negb_true_iff, bool_decide_eq_false, Hsub.
Qed.

(** ** [_are_independent] *)

(** X14: two counter snapshots are independent exactly when some frame name
    is in both with different counters; so the test is symmetric, and no
    snapshot is independent of itself. *)
Theorem are_independent_spec (counters1 counters2 : gmap string Z) :
  (_are_independent counters1 counters2 = true
   ↔ ∃ name counter1 counter2,
       counters1 !! name = Some counter1 ∧ counters2 !! name = Some counter2 ∧
       counter1 ≠ counter2)
  ∧ _are_independent counters1 counters2 = _are_independent counters2 counters1
  ∧ _are_independent counters1 counters1 = false.
Proof.
  assert (Hiff : ∀ c1 c2 : gmap string Z,
            _are_independent c1 c2 = true
            ↔ ∃ name v1 v2, c1 !! name = Some v1 ∧ c2 !! name = Some v2 ∧ v1 ≠ v2).
  { intros c1 c2. unfold _are_independent. rewrite existsb_exists. split.
    - intros ([name v1] & Hin & Htest).
      apply list_elem_of_In, elem_of_map_to_list in Hin.
      destruct (c2 !! name) as [v2|] eqn:Hv2; [|done].
      apply bool_decide_eq_true in Htest. exists name, v1, v2. by repeat split.
    - intros (name & v1 & v2 & H1 & H2 & Hne). exists (name, v1). split.
      + by apply list_elem_of_In, elem_of_map_to_list.
      + rewrite H2. apply bool_decide_eq_true. by intros ->. }
  split; [apply Hiff|]. split.
  - apply eq_true_iff_eq. rewrite !Hiff. split.
    + intros (n & v1 & v2 & ? & ? & ?). exists n, v2, v1. by repeat split.
    + intros (n & v1 & v2 & ? & ? & ?). exists n, v2, v1. by repeat split.
  - apply not_true_iff_false. rewrite Hiff.
    intros (n & v1 & v2 & H1 & H2 & Hne). congruence.
Qed.

(** ** [check_traceenum_requirements] without enumeration *)

Lemma visit_site_no_enumeration set_iter role
    (counters : gmap string (gmap string Z)) (name : string) (site : Site) :
  ∃ counters',
    visit_site set_iter role ∅ (mkEnumState counters []) (name, site)
    = mret (mkEnumState counters' []).
Proof.
  unfold visit_site.
  destruct (decide (site_type site = "sample")) as [Hs|Hs].
  - rewrite bool_decide_eq_false_2 by (by intros ?).
    cbn [enumerated_contexts irange_counters for_each].
    rewrite bool_decide_eq_false_2 by apply not_elem_of_empty.
    rewrite bind_ret. by eexists.
  - rewrite bool_decide_eq_true_2 by done. by eexists.
Qed.

Lemma visit_sites_no_enumeration set_iter role (trace : Trace) :
  ∀ irange_counters,
  ∃ irange_counters',
    foldM (visit_site set_iter role ∅) (mkEnumState irange_counters []) trace
    = mret (mkEnumState irange_counters' []).
Proof.
  induction trace as [|[name site] trace IH]; intros counters.
  - by exists counters.
  - cbn [foldM].
    destruct (visit_site_no_enumeration set_iter role counters name site)
      as [counters' ->].
    rewrite bind_ret. apply IH.
Qed.

(** X15: when no sample site of the guide is marked for enumeration,
    [check_traceenum_requirements] emits no warning and returns, whatever the
    two traces and the order of iteration. *)
Theorem check_traceenum_requirements_no_enumeration
    (set_iter : gset string → list string) (model_trace guide_trace : Trace) :
  (∀ name site, (name, site) ∈ guide_trace → site_type site = "sample" →
                truthy_str (enumerate (site_infer site)) = false) →
  check_traceenum_requirements set_iter model_trace guide_trace = mret tt.
Proof.
  intros Hnone.
  assert (Hempty : enumerated_sites_of guide_trace = ∅).
  { apply set_eq. intros name. unfold enumerated_sites_of.
    rewrite elem_of_names_where. split; [|by intros ?%not_elem_of_empty].
    intros (site & Hin & Hkeep). apply andb_true_iff in Hkeep as [Hs He].
    apply bool_decide_eq_true in Hs. rewrite (Hnone name site Hin Hs) in He.
    done. }
  unfold check_traceenum_requirements. rewrite Hempty. cbn [for_each].
  unfold check_trace_enum.
  destruct (visit_sites_no_enumeration set_iter "model" model_trace ∅) as [c1 ->].
  destruct (visit_sites_no_enumeration set_iter "guide" guide_trace ∅) as [c2 ->].
  reflexivity.
Qed.

Lemma check_traceenum_requirements_no_enumeration_witness :
  check_traceenum_requirements elements [("e", site_e); ("f", site_f)]
    [("f", site_f)] = mret tt.
Proof.
  apply (check_traceenum_requirements_no_enumeration elements
           [("e", site_e); ("f", site_f)] [("f", site_f)]).
  intros name site [[= -> ->]|?%elem_of_nil]%elem_of_cons _; [reflexivity|done].
Defined.

(** ** [check_if_enumerated] *)

Lemma string_app_assoc (a b c : string) : (a +:+ b) +:+ c = a +:+ (b +:+ c).
Proof.
  induction a as [|x a IH]; [done|].
  change (String x ((a +:+ b) +:+ c) = String x (a +:+ (b +:+ c))). by f_equal.
Qed.

Lemma concat_starts (sep first : string) (others : list string) :
  ∃ rest, String.concat sep (first :: others) = first +:+ rest.
Proof.
  destruct others as [|second others]; simpl.
  - exists EmptyString. induction first as [|x a IH]; [done|].
    change (String x a = String x (a +:+ EmptyString)). by f_equal.
  - by eexists.
Qed.

(** X16: [check_if_enumerated] warns, once, exactly when some sample site of
    the guide is marked for enumeration.  The header of the message is passed
    to [join] as the separator, so the text starts with the name of the first
    enumerated site; with a single enumerated site it is that name followed
    by the closing line, without the header. *)
Theorem check_if_enumerated_spec (guide_trace : Trace) :
  (check_if_enumerated guide_trace = []
   ↔ ∀ name site, (name, site) ∈ guide_trace → site_type site = "sample" →
                  truthy_str (enumerate (site_infer site)) = false)
  ∧ (length (check_if_enumerated guide_trace) ≤ 1)%nat
  ∧ (∀ name others, enumerated_site_list guide_trace = name :: others →
       ∃ rest, check_if_enumerated guide_trace = [name +:+ rest])
  ∧ (∀ name, enumerated_site_list guide_trace = [name] →
       check_if_enumerated guide_trace
       = [name +:+ newline +:+
          "If you want to enumerate sites, you need to use TraceEnum_ELBO instead."]).
Proof.
  unfold check_if_enumerated. cbv zeta. repeat split.
  - intros Hnil name site Hin Hs.
    destruct (truthy_str (enumerate (site_infer site))) eqn:He; [|done].
    assert (name ∈ enumerated_site_list guide_trace) as Hname.
    { unfold enumerated_site_list. apply list_elem_of_fmap. exists (name, site).
      split; [done|]. apply list_elem_of_filter. split; [|done]. simpl.
      unfold is_sample. by rewrite bool_decide_eq_true_2, He. }
    destruct (enumerated_site_list guide_trace); [by apply elem_of_nil in Hname|done].
  - intros Hnone. destruct (enumerated_site_list guide_trace) as [|name l] eqn:Hl;
      [done|].
    assert (name ∈ enumerated_site_list guide_trace) as Hname by (rewrite Hl; left).
    unfold enumerated_site_list in Hname.
    apply list_elem_of_fmap in Hname as ([n site] & -> & [Hkeep Hin]%list_elem_of_filter).
    simpl in Hkeep. apply andb_true_iff in Hkeep as [Hs He].
    apply bool_decide_eq_true in Hs. rewrite (Hnone n site Hin Hs) in He. done.
  - destruct (enumerated_site_list guide_trace); simpl; lia.
  - intros name others ->.
    destruct (concat_starts "Found sample sites configured for enumeration:, "
                name others) as [rest Hrest].
    cbn [String.concat] in *. rewrite Hrest, string_app_assoc. by eexists.
  - by intros name ->.
Qed.

(** ** [warn_if_nan] and [warn_if_inf] *)

Lemma equals_inf_spec (v : guarded) (negative : bool) :
  equals_inf v negative = true
  ↔ match v with
    | GNumber x => x = PyFloat (S754_infinity negative)
    | GTensor elems _ => S754_infinity negative ∈ elems
    end.
Proof.
  destruct v as [x|elems rg]; simpl.
  - apply number_eqb_infinity.
  - apply tensor_eq_any_infinity.
Qed.

(** X17: with its default options [warn_if_inf] warns exactly when
    [torch_isinf] holds of the value, and with both [allow_posinf] and
    [allow_neginf] set it never warns; it registers a hook exactly for a
    tensor that requires gradients. *)
Theorem warn_if_inf_spec (v : guarded) (msg : string) :
  (messages (warn_if_inf v msg false false) ≠ []
   ↔ torch_isinf (value_of v) = true)
  ∧ messages (warn_if_inf v msg true true) = []
  ∧ ∀ allow_posinf allow_neginf,
      registered (warn_if_inf v msg allow_posinf allow_neginf) ≠ []
      ↔ ∃ elems, v = GTensor elems true.
Proof.
  repeat split.
  - destruct v as [x|elems rg]; simpl.
    + destruct (number_eqb x _), (number_eqb x _); simpl; done.
    + destruct (tensor_eq_any elems _), (tensor_eq_any elems _); simpl; done.
  - destruct v as [x|elems rg]; simpl.
    + destruct (number_eqb x _), (number_eqb x _); simpl; done.
    + destruct (tensor_eq_any elems _), (tensor_eq_any elems _); simpl; done.
  - destruct v as [x|elems [|]]; simpl; [done|by eexists|done].
  - intros [elems ->]. simpl. done.
Qed.

(** X18: for a number [warn_if_inf] emits at most one warning, since a number
    is not both infinities; for a tensor that holds both it emits two, the
    one about [+inf] first. *)
Theorem warn_if_inf_count (msg : string) (allow_posinf allow_neginf : bool) :
  (∀ x, (length (messages (warn_if_inf (GNumber x) msg allow_posinf allow_neginf))
         ≤ 1)%nat)
  ∧ (∀ elems requires_grad,
       S754_infinity false ∈ elems → S754_infinity true ∈ elems →
       messages (warn_if_inf (GTensor elems requires_grad) msg false false)
       = [encountered "+inf" msg; encountered "-inf" msg]).
Proof.
  split.
  - intros x. unfold warn_if_inf. cbn [messages].
    destruct (equals_inf (GNumber x) false) eqn:Hpos;
      destruct (equals_inf (GNumber x) true) eqn:Hneg;
      destruct allow_posinf, allow_neginf; simpl; try lia.
    apply equals_inf_spec in Hpos, Hneg. congruence.
  - intros elems rg Hpos Hneg. unfold warn_if_inf. cbn [messages].
    rewrite (proj2 (equals_inf_spec (GTensor elems rg) false) Hpos).
    by rewrite (proj2 (equals_inf_spec (GTensor elems rg) true) Hneg).
Qed.

(** X19: [warn_if_nan] emits at most one warning, and emits it exactly when
    the value is the number NaN or a tensor with a NaN element; the text ends
    in a full stop when [msg] is empty and in a colon and [msg] otherwise. *)
Theorem warn_if_nan_spec (v : guarded) (msg : string) :
  (messages (warn_if_nan v msg) = [encountered "NaN" msg]
   ↔ match v with
     | GNumber x => x = PyFloat S754_nan
     | GTensor elems _ => S754_nan ∈ elems
     end)
  ∧ (messages (warn_if_nan v msg) = [encountered "NaN" msg]
     ∨ messages (warn_if_nan v msg) = [])
  ∧ encountered "NaN" EmptyString = "Encountered NaN."
  ∧ (msg ≠ EmptyString → encountered "NaN" msg = "Encountered NaN: " +:+ msg).
Proof.
  assert (Hnan : torch_isnan (value_of v) = true
                 ↔ match v with
                   | GNumber x => x = PyFloat S754_nan
                   | GTensor elems _ => S754_nan ∈ elems
                   end).
  { destruct v as [[i|x]|elems rg]; simpl.
    - rewrite Z.eqb_refl. split; discriminate.
    - rewrite SFeqb_refl, negb_involutive. destruct x; split; done.
    - unfold tensor_isnan_any. rewrite existsb_exists. split.
      + intros (e & Hin & He). destruct e; try done. by apply list_elem_of_In.
      + intros Hin. exists S754_nan. split; [by apply list_elem_of_In|done]. }
  repeat split.
  - unfold warn_if_nan. cbn [messages]. rewrite <- Hnan.
    by destruct (torch_isnan (value_of v)).
  - unfold warn_if_nan. cbn [messages]. rewrite <- Hnan. by intros ->.
  - unfold warn_if_nan. cbn [messages].
    destruct (torch_isnan (value_of v)); [by left|by right].
  - intros Hmsg. unfold encountered.
    destruct (String.eqb_spec msg EmptyString) as [->|_]; done.
Qed.

(** ** [deep_getattr] *)

Lemma split_nonempty (sep : Ascii.ascii) (s : string) : split sep s ≠ [].
Proof.
  destruct s as [|c s]; simpl; [done|].
  destruct (Ascii.eqb c sep); [done|]. by destruct (split sep s).
Qed.

Lemma split_app (sep : Ascii.ascii) (a b : string) :
  split sep (a +:+ String sep b) = split sep a ++ split sep b.
Proof.
  induction a as [|c a IH]; simpl.
  - by rewrite Ascii.eqb_refl.
  - destruct (Ascii.eqb c sep); [by rewrite IH|]. rewrite IH.
    pose proof (split_nonempty sep a). by destruct (split sep a).
Qed.

Lemma split_no_separator (sep : Ascii.ascii) (s : string) :
  sep ∉ list_ascii_of_string s → split sep s = [s].
Proof.
  induction s as [|c s IH]; simpl; [done|]. intros Hnot.
  destruct (Ascii.eqb_spec c sep) as [->|_]; [destruct Hnot; left|].
  rewrite IH; [done|]. intros Hin. apply Hnot. by right.
Qed.

Lemma deep_fold_None {Obj : Type} (getattr : Obj → string → option Obj)
    (parts : list string) :
  foldl (λ acc part, o ← acc; getattr o part) None parts = None.
Proof. by induction parts. Qed.

(** X20: [deep_getattr] composes along a dot: looking up [a.b] is looking up
    [a] and then [b] from the result, and fails when the lookup of [a]
    fails. *)
Theorem deep_getattr_dot {Obj : Type} (getattr : Obj → string → option Obj)
    (obj : Obj) (a b : string) :
  deep_getattr getattr obj (a +:+ String dot b)
  = match deep_getattr getattr obj a with
    | Some o => deep_getattr getattr o b
    | None => None
    end.
Proof.
  unfold deep_getattr. rewrite split_app, foldl_app.
  destruct (foldl _ (Some obj) (split dot a)); [done|apply deep_fold_None].
Qed.

(** X21: on a name without a dot, the empty name included, [deep_getattr] is
    [getattr]. *)
Theorem deep_getattr_plain {Obj : Type} (getattr : Obj → string → option Obj)
    (obj : Obj) (name : string) :
  dot ∉ list_ascii_of_string name →
  deep_getattr getattr obj name = getattr obj name.
Proof.
  intros Hplain. unfold deep_getattr. by rewrite split_no_separator.
Qed.

Lemma deep_getattr_plain_witness :
  deep_getattr (λ (o : nat) (name : string),
                  if String.eqb name "next" then Some (S o) else None) O "next"
  = Some 1%nat.
Proof.
  apply (deep_getattr_plain
           (λ (o : nat) (name : string),
              if String.eqb name "next" then Some (S o) else None) O "next").
  simpl. intros Hin. repeat (apply elem_of_cons in Hin as [[=]|Hin]).
  by apply elem_of_nil in Hin.
Defined.

(** ** [check_traceenum_requirements] under one vectorized context *)

Lemma check_same_context set_iter role name (context : gset Frame)
    irange_counter irange_counters (names : gset string) :
  check_enumerated_context set_iter role name context irange_counter
    irange_counters (context, names) = mret tt.
Proof.
  unfold check_enumerated_context.
  by rewrite bool_decide_eq_false_2 by (intros [_ Hstrict]; by apply Hstrict).
Qed.

Lemma check_same_contexts set_iter role name context irange_counter irange_counters
    (contexts : list (gset Frame * gset string)) :
  (∀ item, item ∈ contexts → item.1 = context) →
  for_each contexts
    (check_enumerated_context set_iter role name context irange_counter
       irange_counters) = mret tt.
Proof.
  induction contexts as [|[c names] contexts IH]; intros Hsame; [done|].
  pose proof (Hsame (c, names) ltac:(left)) as Hc. simpl in Hc. subst c.
  cbn [for_each]. rewrite check_same_context, bind_ret. apply IH. intros item Hitem. apply Hsame. by right.
Qed.

Lemma visit_sites_same_context set_iter role enumerated_sites context
    (trace : Trace) :
  (∀ name site, (name, site) ∈ trace → site_type site = "sample" →
                context_of (cond_indep_stack site) = context) →
  ∀ st, (∀ item, item ∈ enumerated_contexts st → item.1 = context) →
  ∃ st', foldM (visit_site set_iter role enumerated_sites) st trace = mret st'.
Proof.
  induction trace as [|[name site] trace IH]; intros Htrace st Hst.
  - by exists st.
  - cbn [foldM].
    assert (Hrest : ∀ n s, (n, s) ∈ trace → site_type s = "sample" →
              context_of (cond_indep_stack s) = context).
    { intros n s Hin. apply (Htrace n s). by right. }
    destruct (decide (site_type site = "sample")) as [Hs|Hs].
    + assert (Hstep : visit_site set_iter role enumerated_sites st (name, site)
                      = mret (next_state enumerated_sites st name site)).
      { unfold visit_site. rewrite bool_decide_eq_false_2 by (by intros ?).
        rewrite (Htrace name site ltac:(left) Hs).
        rewrite check_same_contexts by done. rewrite bind_ret.
        unfold next_state. by rewrite (Htrace name site ltac:(left) Hs). }
      rewrite Hstep, bind_ret. apply IH; [done|].
      intros [c names] Hitem. simpl in Hitem. case_bool_decide; [|by apply Hst].
      rewrite (Htrace name site ltac:(left) Hs) in Hitem.
      apply contexts_add_elem in Hitem as [Hold|[[-> _]|[-> _]]]; [|done..].
      by apply (Hst (c, names)).
    + assert (Hstep : visit_site set_iter role enumerated_sites st (name, site)
                      = mret st).
      { unfold visit_site. by rewrite bool_decide_eq_true_2. }
      rewrite Hstep, bind_ret. by apply IH.
Qed.

(** X22: when all the sample sites of the model trace lie in one vectorized
    context, and all those of the guide trace lie in one, as when no plate is
    vectorized, [check_traceenum_requirements] emits no warning and returns,
    whichever sites are enumerated. *)
Theorem check_traceenum_requirements_same_context
    (set_iter : gset string → list string) (model_trace guide_trace : Trace)
    (model_context guide_context : gset Frame) :
  (∀ name site, (name, site) ∈ model_trace → site_type site = "sample" →
                context_of (cond_indep_stack site) = model_context) →
  (∀ name site, (name, site) ∈ guide_trace → site_type site = "sample" →
                context_of (cond_indep_stack site) = guide_context) →
  check_traceenum_requirements set_iter model_trace guide_trace = mret tt.
Proof.
  intros Hmodel Hguide. unfold check_traceenum_requirements. cbn [for_each].
  unfold check_trace_enum.
  destruct (visit_sites_same_context set_iter "model"
              (enumerated_sites_of guide_trace) model_context model_trace Hmodel
              (mkEnumState ∅ [])) as [st1 ->];
    [by intros ? ?%elem_of_nil|].
  destruct (visit_sites_same_context set_iter "guide"
              (enumerated_sites_of guide_trace) guide_context guide_trace Hguide
              (mkEnumState ∅ [])) as [st2 ->];
    [by intros ? ?%elem_of_nil|].
  reflexivity.
Qed.

Lemma check_traceenum_requirements_same_context_witness :
  check_traceenum_requirements elements [("f", site_f)]
    [("e", site_e); ("e2", site_e)] = mret tt.
Proof.
  apply (check_traceenum_requirements_same_context elements [("f", site_f)]
           [("e", site_e); ("e2", site_e)]
           (context_of []) (context_of [plateA])).
  - intros name site [[= -> ->]|?%elem_of_nil]%elem_of_cons _; [reflexivity|done].
  - intros name site [[= -> ->]|[[= -> ->]|?%elem_of_nil]%elem_of_cons]%elem_of_cons _;
      [reflexivity|reflexivity|done].
Defined.
